(** * Dataflow-graph helpers of fpga_topwrap ([kpm_common.py])

    A shallow embedding of the helper functions that split a raw
    pipeline-manager dataflow graph into IP-core nodes and external
    metanodes, index the interfaces of a set of nodes by interface id, and
    look interfaces up in a specification.

    Python dictionaries with a fixed set of keys are records; the dictionary
    built by [_get_interfaces], which is keyed by interface id, is a
    [gmap string IfaceEntry]; a function that falls off its end (and so
    returns [None]) returns [option]. *)

From stdpp Require Import gmap strings list fin_maps.

Open Scope string_scope.
Open Scope list_scope.

(** ** Data model *)

(** An interface of a dataflow node: [{"id": .., "name": .., "direction": ..}]. *)
Record Interface := mkInterface {
  intf_id : string;
  intf_name : string;
  intf_direction : string
}.

(** A dataflow node: [{"type": .., "name": .., "interfaces": [..]}]. *)
Record Node := mkNode {
  nd_type : string;
  nd_name : string;
  nd_interfaces : list Interface
}.

(** A connection: [{"from": .., "to": ..}], both interface ids. *)
Record Connection := mkConnection {
  conn_from : string;
  conn_to : string
}.

(** [dataflow_json['graph']]. *)
Record Graph := mkGraph {
  nodes : list Node;
  connections : list Connection
}.

(** [dataflow_json]. *)
Record Dataflow := mkDataflow {
  graph : Graph
}.

(** The value stored per interface id by [_get_interfaces]:
    [{"node_name": .., "iface_name": .., "iface_dir": ..}]. *)
Record IfaceEntry := mkIfaceEntry {
  node_name : string;
  iface_name : string;
  iface_dir : string
}.

(** An interface of a node of the specification; [find_spec_interface_by_name]
    reads its ["name"] only and returns the whole dictionary. *)
Record SpecInterface := mkSpecInterface {
  si_name : string;
  si_direction : string
}.

(** A node of the specification: [{"type": .., "interfaces": [..]}]. *)
Record SpecNode := mkSpecNode {
  sn_type : string;
  sn_interfaces : list SpecInterface
}.

(** [specification]: [{"nodes": [..]}]. *)
Record Specification := mkSpecification {
  spec_nodes : list SpecNode
}.

#[global] Instance Interface_eq_dec : EqDecision Interface.
Proof. solve_decision. Defined.
#[global] Instance Node_eq_dec : EqDecision Node.
Proof. solve_decision. Defined.
#[global] Instance Connection_eq_dec : EqDecision Connection.
Proof. solve_decision. Defined.
#[global] Instance IfaceEntry_eq_dec : EqDecision IfaceEntry.
Proof. solve_decision. Defined.
#[global] Instance SpecInterface_eq_dec : EqDecision SpecInterface.
Proof. solve_decision. Defined.
#[global] Instance SpecNode_eq_dec : EqDecision SpecNode.
Proof. solve_decision. Defined.

(** ** The functions of [kpm_common.py] *)

Definition EXT_INPUT_NAME : string := "External Input".
Definition EXT_OUTPUT_NAME : string := "External Output".

(** [node['type'] in [EXT_INPUT_NAME, EXT_OUTPUT_NAME]] *)
Definition _is_external_metanode (node : Node) : bool :=
  bool_decide (nd_type node ∈ [EXT_INPUT_NAME; EXT_OUTPUT_NAME]).

(** [[node for node in nodes if not _is_external_metanode(node)]] *)
Definition get_dataflow_ip_nodes (dataflow_json : Dataflow) : list Node :=
  List.filter (fun node => negb (_is_external_metanode node))
    (nodes (graph dataflow_json)).

(** [[node for node in nodes if _is_external_metanode(node)]] *)
Definition get_dataflow_metanodes (dataflow_json : Dataflow) : list Node :=
  List.filter (fun node => _is_external_metanode node)
    (nodes (graph dataflow_json)).

(** The body of the inner loop: [result[interface['id']] = {...}]. *)
Definition set_interface (node : Node) (result : gmap string IfaceEntry)
    (interface : Interface) : gmap string IfaceEntry :=
  <[intf_id interface :=
      {| node_name := nd_name node;
         iface_name := intf_name interface;
         iface_dir := intf_direction interface |}]> result.

(** The two nested [for] loops over [nodes] and [node['interfaces']], both
    left to right, updating the one dictionary [result]. *)
Definition _get_interfaces (nodes : list Node) : gmap string IfaceEntry :=
  foldl (fun result node => foldl (set_interface node) result (nd_interfaces node))
    ∅ nodes.

Definition get_dataflow_ips_interfaces (dataflow_json : Dataflow)
    : gmap string IfaceEntry :=
  _get_interfaces (get_dataflow_ip_nodes dataflow_json).

(** [k in d.keys()] *)
Definition in_keys (k : string) (d : gmap string IfaceEntry) : bool :=
  bool_decide (k ∈ dom d).

Definition get_dataflow_ip_connections (dataflow_json : Dataflow)
    : list Connection :=
  let ifaces_ids := get_dataflow_ips_interfaces dataflow_json in
  List.filter
    (fun conn => in_keys (conn_from conn) ifaces_ids
                 && in_keys (conn_to conn) ifaces_ids)
    (connections (graph dataflow_json)).

Definition get_dataflow_externals_interfaces (dataflow_json : Dataflow)
    : gmap string IfaceEntry :=
  _get_interfaces (get_dataflow_metanodes dataflow_json).

Definition get_dataflow_external_connections (dataflow_json : Dataflow)
    : list Connection :=
  let ifaces_ids := get_dataflow_externals_interfaces dataflow_json in
  List.filter
    (fun conn => in_keys (conn_from conn) ifaces_ids
                 || in_keys (conn_to conn) ifaces_ids)
    (connections (graph dataflow_json)).

(** Returns [interfaces[iface_id]] under the guard [iface_id in
    interfaces.keys()], and falls off the end ([None]) otherwise. *)
Definition find_dataflow_interface_by_id (dataflow_json : Dataflow)
    (iface_id : string) : option IfaceEntry :=
  let interfaces := _get_interfaces (nodes (graph dataflow_json)) in
  if in_keys iface_id interfaces then interfaces !! iface_id else None.

(** The inner loop of [find_spec_interface_by_name]: the first interface
    whose name is [iface_name], if there is one. *)
Fixpoint scan_interfaces (interfaces : list SpecInterface) (iface_name : string)
    : option SpecInterface :=
  match interfaces with
  | [] => None
  | interface :: rest =>
      if bool_decide (si_name interface = iface_name) then Some interface
      else scan_interfaces rest iface_name
  end.

(** The outer loop: a node of another type is skipped ([continue]); a node
    of the right type whose interfaces hold no match lets the loop go on. *)
Fixpoint scan_spec_nodes (nodes : list SpecNode) (node_type iface_name : string)
    : option SpecInterface :=
  match nodes with
  | [] => None
  | node :: rest =>
      if bool_decide (sn_type node ≠ node_type)
      then scan_spec_nodes rest node_type iface_name
      else match scan_interfaces (sn_interfaces node) iface_name with
           | Some interface => Some interface
           | None => scan_spec_nodes rest node_type iface_name
           end
  end.

Definition find_spec_interface_by_name (specification : Specification)
    (node_type iface_name : string) : option SpecInterface :=
  scan_spec_nodes (spec_nodes specification) node_type iface_name.

(** The loop of [find_dataflow_node_type_by_name]. *)
Fixpoint scan_nodes_by_name (nodes : list Node) (node_name : string)
    : option string :=
  match nodes with
  | [] => None
  | node :: rest =>
      if bool_decide (nd_name node = node_name) then Some (nd_type node)
      else scan_nodes_by_name rest node_name
  end.

Definition find_dataflow_node_type_by_name (dataflow_data : Dataflow)
    (node_name : string) : option string :=
  scan_nodes_by_name (nodes (graph dataflow_data)) node_name.

(** ** The index as a sequence of assignments *)

(** The dictionary value stored for [interface] of [node]. *)
Definition iface_entry (node : Node) (interface : Interface) : IfaceEntry :=
  {| node_name := nd_name node;
     iface_name := intf_name interface;
     iface_dir := intf_direction interface |}.

(** The assignments [result[key] = value] that [_get_interfaces] makes, in
    the order in which the two loops make them. *)
Definition assignments (ns : list Node) : list (string * IfaceEntry) :=
  ns ≫= (λ node,
    (λ interface, (intf_id interface, iface_entry node interface))
      <$> nd_interfaces node).

(** The interface ids of a sequence of nodes, with repetitions. *)
Definition interface_ids (ns : list Node) : list string :=
  ns ≫= (λ node, intf_id <$> nd_interfaces node).

(** [k] is the id of an interface of one of [ns], and [e] describes it. *)
Definition indexes (ns : list Node) (k : string) (e : IfaceEntry) : Prop :=
  ∃ node interface,
    node ∈ ns ∧ interface ∈ nd_interfaces node ∧
    intf_id interface = k ∧
    e = {| node_name := nd_name node;
           iface_name := intf_name interface;
           iface_dir := intf_direction interface |}.

(** The entry of the last interface, in iteration order, whose id is [k]. *)
Definition last_assigned (k : string) (ns : list Node) : option IfaceEntry :=
  snd <$> last (filter (λ p, p.1 = k) (assignments ns)).

Definition store (m : gmap string IfaceEntry) (p : string * IfaceEntry)
    : gmap string IfaceEntry :=
  <[p.1 := p.2]> m.

(** ** Endpoints of a connection *)

(** [k] is the id of an interface of an IP-core node of the graph. *)
Definition core_interface (d : Dataflow) (k : string) : Prop :=
  ∃ node interface,
    node ∈ nodes (graph d) ∧ _is_external_metanode node = false ∧
    interface ∈ nd_interfaces node ∧ intf_id interface = k.

(** [k] is the id of an interface of a metanode of the graph. *)
Definition metanode_interface (d : Dataflow) (k : string) : Prop :=
  ∃ node interface,
    node ∈ nodes (graph d) ∧ _is_external_metanode node = true ∧
    interface ∈ nd_interfaces node ∧ intf_id interface = k.

(** ** The lookup of the specification resolver, as the specification words it *)

(** Type-then-name: keep the catalog entries of the given type, then take
    the first interface of theirs that carries the given name. *)
Definition type_then_name (catalog : list SpecNode) (node_type iface_name : string)
    : option SpecInterface :=
  head (filter (λ i, si_name i = iface_name)
          (filter (λ n, sn_type n = node_type) catalog ≫= sn_interfaces)).

(** The first node called [node_name], if any. *)
Definition first_named (ns : list Node) (node_name : string) : option Node :=
  head (filter (λ n, nd_name n = node_name) ns).

(** ** The translator to the editor's specification *)

(** Modelled from the spec: an interface of a catalog entry.  The module
    [yamls_to_kpm_spec_parser] that builds the editor's specification is not
    among the sources; the catalog it reads is described in the data model
    as a list of interfaces with a name, a direction and a multi-connectable
    flag per IP-core type. *)
Record CatalogInterface := mkCatalogInterface {
  ci_name : string;
  ci_direction : string;
  ci_multi : bool
}.

(** Modelled from the spec: a catalog entry, one per IP-core type
    (module [yamls_to_kpm_spec_parser] is missing). *)
Record CatalogEntry := mkCatalogEntry {
  ce_type : string;
  ce_interfaces : list CatalogInterface
}.

(** Modelled from the spec: the name of the single interface of a metanode
    descriptor (module [yamls_to_kpm_spec_parser] is missing).  The
    specification fixes the direction of that interface and leaves its name
    open; nothing below depends on the name chosen here. *)
Definition METANODE_IFACE_NAME : string := "external".

(** Modelled from the spec: the node-type descriptor of a catalog entry
    (module [yamls_to_kpm_spec_parser] is missing); its interface list
    mirrors the entry's interfaces, name and direction. *)
Definition descriptor (entry : CatalogEntry) : SpecNode :=
  {| sn_type := ce_type entry;
     sn_interfaces :=
       (λ i, {| si_name := ci_name i; si_direction := ci_direction i |})
         <$> ce_interfaces entry |}.

(** Modelled from the spec: the descriptor of the external-input metanode
    (module [yamls_to_kpm_spec_parser] is missing); an external input
    exposes one output-direction interface to the internal graph. *)
Definition external_input_descriptor : SpecNode :=
  {| sn_type := EXT_INPUT_NAME;
     sn_interfaces :=
       [ {| si_name := METANODE_IFACE_NAME; si_direction := "output" |} ] |}.

(** Modelled from the spec: the descriptor of the external-output metanode
    (module [yamls_to_kpm_spec_parser] is missing); an external output
    exposes one input-direction interface to the internal graph. *)
Definition external_output_descriptor : SpecNode :=
  {| sn_type := EXT_OUTPUT_NAME;
     sn_interfaces :=
       [ {| si_name := METANODE_IFACE_NAME; si_direction := "input" |} ] |}.

(** Modelled from the spec: [to_editor_specification]
    ([ipcore_yamls_to_kpm_spec] of the missing module
    [yamls_to_kpm_spec_parser]): a descriptor for each catalog entry, plus
    the two fixed metanode descriptors. *)
Definition to_editor_specification (catalog : list CatalogEntry) : Specification :=
  {| spec_nodes :=
       (descriptor <$> catalog)
         ++ [external_input_descriptor; external_output_descriptor] |}.

(** ** Sample data *)

Definition sample_core_a : Node :=
  mkNode "axi_dispctrl" "disp" [mkInterface "i1" "S00_AXI" "input";
                                mkInterface "i2" "HSYNC_O" "output"].
Definition sample_core_b : Node :=
  mkNode "hdmi_tx" "hdmi" [mkInterface "i3" "HSync" "input"].
Definition sample_input : Node :=
  mkNode "External Input" "clk" [mkInterface "x1" "external" "output"].
Definition sample_output : Node :=
  mkNode "External Output" "HDMI" [mkInterface "x2" "external" "input"].

Definition sample_nodes : list Node :=
  [sample_core_a; sample_input; sample_core_b; sample_output].

Definition sample_connections : list Connection :=
  [mkConnection "i2" "i3"; mkConnection "x1" "i1";
   mkConnection "i2" "x2"; mkConnection "i2" "nowhere"].

Definition sample_dataflow : Dataflow :=
  mkDataflow (mkGraph sample_nodes sample_connections).

(** Two nodes that share the interface id ["i1"]. *)
Definition clashing_nodes : list Node :=
  [ mkNode "axi_dispctrl" "disp" [mkInterface "i1" "S00_AXI" "input"];
    mkNode "hdmi_tx" "hdmi" [mkInterface "i1" "HSync" "input";
                             mkInterface "i4" "VSync" "input"] ].

Definition sample_specification : Specification :=
  mkSpecification
    [ mkSpecNode "uart" [mkSpecInterface "tx" "output"];
      mkSpecNode "spi" [mkSpecInterface "rx" "input"];
      mkSpecNode "uart" [mkSpecInterface "rx" "input";
                         mkSpecInterface "rx" "inout"] ].

(** The twelve IP-core types of the HDMI example, as a catalog. *)
Definition hdmi_catalog : list CatalogEntry :=
  (λ type, mkCatalogEntry type [mkCatalogInterface "clk" "input" false])
    <$> [ "axi_dispctrl"; "clock_crossing"; "dma_axi_in_axis_out"; "hdmi_tx";
          "litex_mmcm"; "proc_sys_reset"; "ps7"; "axi_axil_adapter";
          "axi_interconnect"; "axi_protocol_converter";
          "axis_dwidth_converter"; "axis_async_fifo" ].

(** A core node and a metanode that share the interface id ["a"]. *)
Definition shared_id_dataflow : Dataflow :=
  mkDataflow
    (mkGraph
       [ mkNode "ps7" "ps7" [mkInterface "a" "FCLK0" "output";
                             mkInterface "b" "MAXIGP0ACLK" "input"];
         mkNode "External Output" "clk_out" [mkInterface "a" "external" "input"] ]
       [ mkConnection "a" "b" ]).

(** ** Derived graphs *)

(** The connection with its two ends exchanged. *)
Definition swap_connection (c : Connection) : Connection :=
  {| conn_from := conn_to c; conn_to := conn_from c |}.

(** The graph made of the IP-core nodes and of the IP-core connections of a
    graph. *)
Definition core_subgraph (d : Dataflow) : Dataflow :=
  mkDataflow (mkGraph (get_dataflow_ip_nodes d) (get_dataflow_ip_connections d)).

(** The number of interfaces of a sequence of nodes. *)
Definition interface_count (ns : list Node) : nat :=
  sum_list_with (λ node, length (nd_interfaces node)) ns.

(** A graph whose nodes have no interfaces and that still lists a
    connection. *)
Definition bare_dataflow : Dataflow :=
  mkDataflow
    (mkGraph [mkNode "ps7" "ps7" []; mkNode "External Input" "clk" []]
             [mkConnection "a" "b"]).

(** A graph without metanodes. *)
Definition cores_only_dataflow : Dataflow :=
  mkDataflow
    (mkGraph [sample_core_a; sample_core_b]
             [mkConnection "i2" "i3"; mkConnection "i2" "x2"]).

(** A graph with unique ids in which every connection joins two interfaces
    of the graph. *)
Definition closed_dataflow : Dataflow :=
  mkDataflow
    (mkGraph sample_nodes
             [mkConnection "x1" "i1"; mkConnection "i2" "i3";
              mkConnection "i2" "x2"]).

(** A specification with one node per type. *)
Definition unique_types_specification : Specification :=
  mkSpecification
    [ mkSpecNode "uart" [mkSpecInterface "tx" "output";
                         mkSpecInterface "rx" "input"];
      mkSpecNode "spi" [mkSpecInterface "rx" "inout"] ].

Section index.
Implicit Types (ns : list Node) (k : string) (e : IfaceEntry).
Implicit Types (m : gmap string IfaceEntry) (l : list (string * IfaceEntry)).

Lemma foldl_set_interface node m (ifs : list Interface) :
  foldl (set_interface node) m ifs
  = foldl store m ((λ i, (intf_id i, iface_entry node i)) <$> ifs).
Proof. revert m. induction ifs as [|i ifs IH]; intros m; simpl; [done|]. apply IH. Qed.

Lemma foldl_nodes_store m ns :
  foldl (fun result node => foldl (set_interface node) result (nd_interfaces node))
    m ns
  = foldl store m (assignments ns).
Proof.
  revert m. induction ns as [|n ns IH]; intros m; [done|].
  unfold assignments. rewrite bind_cons, foldl_app. simpl.
  rewrite IH, foldl_set_interface. done.
Qed.

Lemma lookup_foldl_store m l k :
  foldl store m l !! k
  = match last (filter (λ p, p.1 = k) l) with
    | Some p => Some p.2
    | None => m !! k
    end.
Proof.
  induction l as [|p l IH] using rev_ind; [done|].
  rewrite foldl_snoc, filter_app. unfold store at 1.
  destruct (decide (p.1 = k)) as [Heq|Hne].
  - rewrite (filter_cons_True _ p []), filter_nil, last_snoc by done.
    rewrite Heq. apply lookup_insert_eq.
  - rewrite (filter_cons_False _ p []), filter_nil, app_nil_r by done.
    rewrite lookup_insert_ne by done. apply IH.
Qed.

Lemma get_interfaces_lookup ns k :
  _get_interfaces ns !! k = last_assigned k ns.
Proof.
  unfold _get_interfaces, last_assigned.
  rewrite foldl_nodes_store, lookup_foldl_store.
  destruct (last _); done.
Qed.

Lemma elem_of_assignments ns k e : (k, e) ∈ assignments ns ↔ indexes ns k e.
Proof.
  unfold assignments, indexes. rewrite list_elem_of_bind. split.
  - intros (node & Hin & Hnode). apply list_elem_of_fmap in Hin as (i & Heq & Hi).
    injection Heq as -> ->. by exists node, i.
  - intros (node & i & Hnode & Hi & <- & ->). exists node. split; [|done].
    apply list_elem_of_fmap. by exists i.
Qed.

Lemma interface_ids_assignments ns : interface_ids ns = (assignments ns).*1.
Proof.
  unfold interface_ids, assignments.
  induction ns as [|n ns IH]; [done|].
  rewrite !bind_cons, fmap_app, IH. f_equal.
  rewrite <- list_fmap_compose. done.
Qed.

Lemma elem_of_interface_ids ns k :
  k ∈ interface_ids ns ↔ ∃ e, indexes ns k e.
Proof.
  rewrite interface_ids_assignments, list_elem_of_fmap. split.
  - intros ([k' e] & -> & Hin). exists e. by apply elem_of_assignments.
  - intros (e & He). exists (k, e). split; [done|]. by apply elem_of_assignments.
Qed.

Lemma last_assigned_Some ns k e :
  last_assigned k ns = Some e → indexes ns k e.
Proof.
  unfold last_assigned. intros H.
  apply fmap_Some in H as ([k' e'] & Hlast & ->).
  apply last_Some_elem_of, list_elem_of_filter in Hlast as [Hk Hin].
  simpl in *. subst k'. by apply elem_of_assignments.
Qed.

Lemma last_assigned_is_Some ns k :
  is_Some (last_assigned k ns) ↔ k ∈ interface_ids ns.
Proof.
  unfold last_assigned. rewrite fmap_is_Some, elem_of_interface_ids. split.
  - intros [[k' e] Hlast]. exists e.
    apply (last_assigned_Some ns k e). unfold last_assigned.
    rewrite Hlast. simpl.
    apply last_Some_elem_of, list_elem_of_filter in Hlast as [Hk _]. done.
  - intros [e He%elem_of_assignments].
    destruct (last _) as [p|] eqn:Hlast; [by eexists|].
    apply last_None in Hlast.
    assert ((k, e) ∈ filter (λ p, p.1 = k) (assignments ns)) as Hin
      by by apply list_elem_of_filter.
    rewrite Hlast in Hin. by apply elem_of_nil in Hin.
Qed.

Lemma in_keys_get_interfaces ns k :
  in_keys k (_get_interfaces ns) = true ↔ k ∈ interface_ids ns.
Proof.
  unfold in_keys. rewrite bool_decide_eq_true, elem_of_dom, get_interfaces_lookup.
  apply last_assigned_is_Some.
Qed.

Lemma in_keys_lookup k m : in_keys k m = true ↔ is_Some (m !! k).
Proof. unfold in_keys. by rewrite bool_decide_eq_true, elem_of_dom. Qed.

Lemma indexes_functional ns k e1 e2 :
  NoDup (interface_ids ns) → indexes ns k e1 → indexes ns k e2 → e1 = e2.
Proof.
  rewrite interface_ids_assignments. intros Hnd H1%elem_of_assignments H2%elem_of_assignments.
  pose proof (elem_of_list_to_map_1 (M:=gmap string) _ _ _ Hnd H1) as E1.
  pose proof (elem_of_list_to_map_1 (M:=gmap string) _ _ _ Hnd H2) as E2.
  congruence.
Qed.
End index.

(** Closes a decidable goal about concrete data by evaluation. *)
Ltac by_computation := apply (bool_decide_unpack _); vm_compute; exact I.

(** ** List comprehensions *)

Section comprehension.
Context {A : Type}.
Implicit Types (f : A → bool) (l : list A).

Lemma elem_of_comprehension f l x : x ∈ List.filter f l ↔ x ∈ l ∧ f x = true.
Proof. rewrite !list_elem_of_In. apply filter_In. Qed.

Lemma comprehension_filter f (P : A → Prop) `{!∀ x, Decision (P x)} l :
  (∀ x, f x = true ↔ P x) → List.filter f l = filter P l.
Proof.
  intros Hf. induction l as [|a l IH]; [done|]. simpl.
  destruct (f a) eqn:Hfa.
  - rewrite filter_cons_True by by apply Hf. by rewrite IH.
  - rewrite filter_cons_False; [done|]. rewrite <- Hf. congruence.
Qed.

Lemma comprehension_split f l :
  List.filter (λ x, negb (f x)) l ++ List.filter f l ≡ₚ l.
Proof.
  induction l as [|a l IH]; [done|]. simpl. destruct (f a); simpl.
  - rewrite <- Permutation_middle. by constructor.
  - by constructor.
Qed.

Lemma comprehension_count `{EqDecision A} f l x :
  count_occ (decide_rel (=)) (List.filter f l) x
  = if f x then count_occ (decide_rel (=)) l x else 0.
Proof.
  induction l as [|a l IH]; simpl; [by destruct (f x)|].
  destruct (decide_rel (=) a x) as [->|Hne].
  - destruct (f x); simpl; [|done]. rewrite IH. by destruct (decide_rel (=) x x).
  - destruct (f a); simpl; [|done]. rewrite IH. by destruct (decide_rel (=) a x).
Qed.
End comprehension.

(** ** Classification of nodes and of interface ids *)

Lemma is_external_metanode_iff node :
  _is_external_metanode node = true
  ↔ nd_type node = EXT_INPUT_NAME ∨ nd_type node = EXT_OUTPUT_NAME.
Proof.
  unfold _is_external_metanode.
  rewrite bool_decide_eq_true, !elem_of_cons, elem_of_nil. tauto.
Qed.

Lemma elem_of_ids_filter (f : Node → bool) ns k :
  k ∈ interface_ids (List.filter f ns)
  ↔ ∃ node interface,
      node ∈ ns ∧ f node = true ∧
      interface ∈ nd_interfaces node ∧ intf_id interface = k.
Proof.
  unfold interface_ids. rewrite list_elem_of_bind. split.
  - intros (node & Hk & [Hnode Hf]%elem_of_comprehension).
    apply list_elem_of_fmap in Hk as (i & -> & Hi). by exists node, i.
  - intros (node & i & Hnode & Hf & Hi & <-). exists node. split.
    + apply list_elem_of_fmap. by exists i.
    + by apply elem_of_comprehension.
Qed.

Lemma core_interface_ids d k :
  core_interface d k ↔ k ∈ interface_ids (get_dataflow_ip_nodes d).
Proof.
  unfold get_dataflow_ip_nodes, core_interface. rewrite elem_of_ids_filter.
  split; intros (node & i & Hnode & Hf & Hi); exists node, i; repeat split; try tauto.
  - by rewrite Hf.
  - by apply negb_true_iff.
Qed.

Lemma metanode_interface_ids d k :
  metanode_interface d k ↔ k ∈ interface_ids (get_dataflow_metanodes d).
Proof.
  unfold get_dataflow_metanodes, metanode_interface. by rewrite elem_of_ids_filter.
Qed.

Lemma in_keys_ips d k :
  in_keys k (get_dataflow_ips_interfaces d) = true ↔ core_interface d k.
Proof.
  unfold get_dataflow_ips_interfaces.
  by rewrite in_keys_get_interfaces, core_interface_ids.
Qed.

Lemma in_keys_externals d k :
  in_keys k (get_dataflow_externals_interfaces d) = true ↔ metanode_interface d k.
Proof.
  unfold get_dataflow_externals_interfaces.
  by rewrite in_keys_get_interfaces, metanode_interface_ids.
Qed.

(** With unique ids, an interface id has one owning node. *)
Lemma unique_id_one_owner ns n1 n2 i1 i2 :
  NoDup (interface_ids ns) →
  n1 ∈ ns → n2 ∈ ns →
  i1 ∈ nd_interfaces n1 → i2 ∈ nd_interfaces n2 →
  intf_id i1 = intf_id i2 → n1 = n2.
Proof.
  unfold interface_ids. induction ns as [|a ns IH]; intros Hnd H1 H2 Hi1 Hi2 Heq.
  - by apply elem_of_nil in H1.
  - rewrite bind_cons in Hnd. apply NoDup_app in Hnd as (_ & Hsep & Hnd).
    assert (∀ n i, n ∈ ns → i ∈ nd_interfaces n →
              intf_id i ∈ ns ≫= (λ node, intf_id <$> nd_interfaces node)) as Hin.
    { intros n i Hn Hi. apply list_elem_of_bind. exists n. split; [|done].
      by apply list_elem_of_fmap_2. }
    apply elem_of_cons in H1 as [->|H1]; apply elem_of_cons in H2 as [->|H2].
    + done.
    + exfalso. apply (Hsep (intf_id i1)); [by apply list_elem_of_fmap_2|].
      rewrite Heq. by eapply Hin.
    + exfalso. apply (Hsep (intf_id i2)); [by apply list_elem_of_fmap_2|].
      rewrite <- Heq. by eapply Hin.
    + by eapply IH.
Qed.

Lemma unique_ids_separate d k :
  NoDup (interface_ids (nodes (graph d))) →
  core_interface d k → metanode_interface d k → False.
Proof.
  intros Hnd (n1 & i1 & Hn1 & Hc1 & Hi1 & Hk1) (n2 & i2 & Hn2 & Hc2 & Hi2 & Hk2).
  assert (n1 = n2) as -> by (eapply unique_id_one_owner; eauto; congruence).
  congruence.
Qed.

(** ** The scanning loops *)

Lemma scan_interfaces_head interfaces nm :
  scan_interfaces interfaces nm = head (filter (λ i, si_name i = nm) interfaces).
Proof.
  induction interfaces as [|i rest IH]; [done|]. simpl. case_bool_decide.
  - by rewrite filter_cons_True.
  - by rewrite filter_cons_False.
Qed.

Lemma scan_spec_nodes_type_then_name catalog ty nm :
  scan_spec_nodes catalog ty nm = type_then_name catalog ty nm.
Proof.
  unfold type_then_name. induction catalog as [|n rest IH]; [done|]. simpl.
  case_bool_decide as Hty.
  - by rewrite filter_cons_False.
  - rewrite filter_cons_True, bind_cons, filter_app by done.
    rewrite scan_interfaces_head, IH.
    by destruct (filter _ (sn_interfaces n)).
Qed.

Lemma type_then_name_Some catalog ty nm i :
  type_then_name catalog ty nm = Some i →
  si_name i = nm ∧ ∃ n, n ∈ catalog ∧ sn_type n = ty ∧ i ∈ sn_interfaces n.
Proof.
  unfold type_then_name. intros Hhead.
  assert (i ∈ filter (λ i, si_name i = nm)
                (filter (λ n, sn_type n = ty) catalog ≫= sn_interfaces)) as Hin.
  { destruct (filter _ _) as [|x l]; [done|]. injection Hhead as ->. left. }
  apply list_elem_of_filter in Hin as [Hnm Hin]. split; [done|].
  apply list_elem_of_bind in Hin as (n & Hi & [Hty Hn]%list_elem_of_filter).
  by exists n.
Qed.

Lemma type_then_name_None catalog ty nm :
  type_then_name catalog ty nm = None
  ↔ ∀ n i, n ∈ catalog → sn_type n = ty → i ∈ sn_interfaces n → si_name i ≠ nm.
Proof.
  unfold type_then_name. rewrite head_None. split.
  - intros Hnil n i Hn Hty Hi Hnm.
    eapply (filter_nil_not_elem_of _ _ i Hnil Hnm).
    apply list_elem_of_bind. exists n. split; [done|]. by apply list_elem_of_filter.
  - intros Hnone. destruct (filter _ _) as [|i l] eqn:Hfilter; [done|].
    assert (i ∈ filter (λ i, si_name i = nm)
                  (filter (λ n, sn_type n = ty) catalog ≫= sn_interfaces)) as Hin
      by (rewrite Hfilter; left).
    apply list_elem_of_filter in Hin as [Hnm Hin].
    apply list_elem_of_bind in Hin as (n & Hi & [Hty Hn]%list_elem_of_filter).
    by destruct (Hnone n i).
Qed.

Lemma scan_nodes_by_name_first ns nm :
  match scan_nodes_by_name ns nm with
  | Some t =>
      ∃ before node after,
        ns = before ++ node :: after ∧
        (∀ m, m ∈ before → nd_name m ≠ nm) ∧
        nd_name node = nm ∧ t = nd_type node
  | None => ∀ node, node ∈ ns → nd_name node ≠ nm
  end.
Proof.
  induction ns as [|a ns IH]; simpl.
  - intros node Hin. by apply elem_of_nil in Hin.
  - case_bool_decide as Ha.
    + exists [], a, ns. split; [done|]. split; [|done].
      intros m Hin. by apply elem_of_nil in Hin.
    + destruct (scan_nodes_by_name ns nm) as [t|].
      * destruct IH as (before & node & after & -> & Hbefore & Hnode & ->).
        exists (a :: before), node, after. split; [done|]. split; [|done].
        intros m [->|Hm]%elem_of_cons; [done|]. by apply Hbefore.
      * intros node [->|Hin]%elem_of_cons; [done|]. by apply IH.
Qed.

Lemma scan_nodes_by_name_first_named ns nm :
  scan_nodes_by_name ns nm = nd_type <$> first_named ns nm.
Proof.
  unfold first_named. induction ns as [|a ns IH]; [done|]. simpl.
  case_bool_decide.
  - by rewrite filter_cons_True.
  - by rewrite filter_cons_False.
Qed.

(** ** The functions on the sample data *)

Example sample_ip_nodes :
  get_dataflow_ip_nodes sample_dataflow = [sample_core_a; sample_core_b].
Proof. reflexivity. Qed.

Example sample_metanodes :
  get_dataflow_metanodes sample_dataflow = [sample_input; sample_output].
Proof. reflexivity. Qed.

Example sample_assignments :
  assignments clashing_nodes
  = [ ("i1", mkIfaceEntry "disp" "S00_AXI" "input");
      ("i1", mkIfaceEntry "hdmi" "HSync" "input");
      ("i4", mkIfaceEntry "hdmi" "VSync" "input") ].
Proof. reflexivity. Qed.

Example sample_index :
  map_to_list (_get_interfaces clashing_nodes)
  ≡ₚ [ ("i1", mkIfaceEntry "hdmi" "HSync" "input");
       ("i4", mkIfaceEntry "hdmi" "VSync" "input") ].
Proof.
  change (_get_interfaces clashing_nodes)
    with (<["i4" := mkIfaceEntry "hdmi" "VSync" "input"]>
            (<["i1" := mkIfaceEntry "hdmi" "HSync" "input"]>
               (<["i1" := mkIfaceEntry "disp" "S00_AXI" "input"]>
                  (∅ : gmap string IfaceEntry)))).
  rewrite insert_insert_eq, insert_empty.
  rewrite map_to_list_insert by done.
  rewrite map_to_list_singleton. apply Permutation_swap.
Qed.

Example sample_find_by_id :
  find_dataflow_interface_by_id sample_dataflow "x2"
  = Some (mkIfaceEntry "HDMI" "external" "input")
  ∧ find_dataflow_interface_by_id sample_dataflow "nowhere" = None.
Proof. split; reflexivity. Qed.

Example sample_find_spec_interface :
  find_spec_interface_by_name sample_specification "uart" "tx"
  = Some (mkSpecInterface "tx" "output")
  ∧ find_spec_interface_by_name sample_specification "uart" "rx"
    = Some (mkSpecInterface "rx" "input")
  ∧ find_spec_interface_by_name sample_specification "spi" "tx" = None.
Proof. repeat split. Qed.

Example sample_find_node_type :
  find_dataflow_node_type_by_name sample_dataflow "hdmi" = Some "hdmi_tx"
  ∧ find_dataflow_node_type_by_name sample_dataflow "ps7" = None.
Proof. split; reflexivity. Qed.

(** When a core node and a metanode share an interface id, a connection can
    be in both lists: the uniqueness of the ids is what separates them. *)
Remark shared_id_in_both_lists :
  mkConnection "a" "b" ∈ get_dataflow_ip_connections shared_id_dataflow
  ∧ mkConnection "a" "b" ∈ get_dataflow_external_connections shared_id_dataflow.
Proof. split; by_computation. Qed.

(** ** Partition of the nodes *)

(** C2: the IP-core nodes and the metanodes of a graph together are the
    graph's nodes (as many times as the graph lists them) and no node is in
    both lists; a node is a metanode exactly when its type is ["External
    Input"] or ["External Output"], and two nodes of the same type are
    classified alike whatever their names and interfaces are. *)
Theorem nodes_partition (d : Dataflow) :
  get_dataflow_ip_nodes d ++ get_dataflow_metanodes d ≡ₚ nodes (graph d)
  ∧ (∀ node, ¬ (node ∈ get_dataflow_ip_nodes d ∧ node ∈ get_dataflow_metanodes d))
  ∧ (∀ node, node ∈ get_dataflow_metanodes d
       ↔ node ∈ nodes (graph d)
         ∧ (nd_type node = "External Input" ∨ nd_type node = "External Output"))
  ∧ (∀ node, node ∈ get_dataflow_ip_nodes d
       ↔ node ∈ nodes (graph d)
         ∧ ¬ (nd_type node = "External Input" ∨ nd_type node = "External Output"))
  ∧ (∀ n1 n2, nd_type n1 = nd_type n2
       → _is_external_metanode n1 = _is_external_metanode n2).
Proof.
  unfold get_dataflow_ip_nodes, get_dataflow_metanodes.
  split; [apply comprehension_split|].
  split.
  { intros node [[_ H1]%elem_of_comprehension [_ H2]%elem_of_comprehension].
    rewrite H2 in H1. discriminate. }
  split.
  { intros node. by rewrite elem_of_comprehension, is_external_metanode_iff. }
  split.
  { intros node.
    rewrite elem_of_comprehension, negb_true_iff, <- is_external_metanode_iff.
    by rewrite not_true_iff_false. }
  intros n1 n2 Hty. unfold _is_external_metanode. by rewrite Hty.
Qed.

(** ** The interface index *)

(** C10: whatever the nodes, and so also when two interfaces share an id,
    the index maps an id to the entry of the last interface with that id in
    iteration order: if the loops assign [k := e] and never assign to [k]
    again, [e] is the value found under [k]. *)
Theorem get_interfaces_last_wins (ns : list Node) (k : string) (e : IfaceEntry)
    (before after : list (string * IfaceEntry)) :
  assignments ns = before ++ (k, e) :: after →
  k ∉ after.*1 →
  _get_interfaces ns !! k = Some e ∧ last_assigned k ns = Some e.
Proof.
  intros Hassign Hafter. rewrite get_interfaces_lookup.
  assert (last_assigned k ns = Some e) as ->; [|done].
  unfold last_assigned. rewrite Hassign, filter_app, filter_cons_True by done.
  assert (filter (λ p, p.1 = k) after = []) as ->.
  { destruct (filter _ after) as [|p rest] eqn:Hfilter; [done|].
    assert (p ∈ filter (λ p, p.1 = k) after) as [Hk Hp]%list_elem_of_filter
      by (rewrite Hfilter; left).
    destruct Hafter. rewrite <- Hk. by apply list_elem_of_fmap_2. }
  by rewrite last_snoc.
Qed.

Lemma get_interfaces_last_wins_witness :
  _get_interfaces clashing_nodes !! "i1" = Some (mkIfaceEntry "hdmi" "HSync" "input")
  ∧ last_assigned "i1" clashing_nodes = Some (mkIfaceEntry "hdmi" "HSync" "input").
Proof.
  apply (get_interfaces_last_wins clashing_nodes "i1" _
           [("i1", mkIfaceEntry "disp" "S00_AXI" "input")]
           [("i4", mkIfaceEntry "hdmi" "VSync" "input")]).
  - reflexivity.
  - vm_compute. intros H. inversion H as [|? ? ? H']. subst. inversion H'.
    all: discriminate.
Defined.

(** C6: when the interface ids of the nodes are unique, the index holds
    under [k] the entry [e] exactly when [k] is the id of an interface of
    one of the nodes and [e] is made of the owning node's name and of the
    interface's name and direction; the index of the IP-core interfaces of a
    graph is that index over the graph's IP-core nodes. *)
Theorem interface_index_exact (ns : list Node) (cs : list Connection)
    (Hunique : NoDup (interface_ids ns)) :
  (∀ k e,
     _get_interfaces ns !! k = Some e
     ↔ ∃ node interface,
         node ∈ ns ∧ interface ∈ nd_interfaces node ∧ intf_id interface = k ∧
         e = {| node_name := nd_name node;
                iface_name := intf_name interface;
                iface_dir := intf_direction interface |})
  ∧ (∀ k e,
       get_dataflow_ips_interfaces (mkDataflow (mkGraph ns cs)) !! k = Some e
       ↔ ∃ node interface,
           node ∈ ns ∧ _is_external_metanode node = false ∧
           interface ∈ nd_interfaces node ∧ intf_id interface = k ∧
           e = {| node_name := nd_name node;
                  iface_name := intf_name interface;
                  iface_dir := intf_direction interface |}).
Proof.
  assert (∀ ms k e, (∀ k e1 e2, indexes ms k e1 → indexes ms k e2 → e1 = e2) →
            _get_interfaces ms !! k = Some e ↔ indexes ms k e) as Hexact.
  { intros ms k e Hfun. rewrite get_interfaces_lookup. split.
    - apply last_assigned_Some.
    - intros He. destruct (last_assigned k ms) as [e'|] eqn:Hlast.
      + f_equal. apply last_assigned_Some in Hlast. by eapply Hfun.
      + assert (is_Some (last_assigned k ms)) as [? ?]; [|congruence].
        apply last_assigned_is_Some, elem_of_interface_ids. by exists e. }
  split; intros k e.
  - apply Hexact. intros k' e1 e2. by apply indexes_functional.
  - unfold get_dataflow_ips_interfaces. rewrite Hexact.
    + unfold indexes, get_dataflow_ip_nodes. simpl. split.
      * intros (node & i & [Hn Hc]%elem_of_comprehension & Hi & Hk & He).
        exists node, i. by rewrite negb_true_iff in Hc.
      * intros (node & i & Hn & Hc & Hi & Hk & He). exists node, i.
        rewrite elem_of_comprehension, negb_true_iff. done.
    + intros k' e1 e2 (n1 & i1 & [Hn1 _]%elem_of_comprehension & Hi1 & Hk1 & ->)
                      (n2 & i2 & [Hn2 _]%elem_of_comprehension & Hi2 & Hk2 & ->).
      simpl in Hn1, Hn2. apply (indexes_functional ns k'); [done| |].
      * by exists n1, i1.
      * by exists n2, i2.
Qed.

Lemma interface_index_exact_witness :
  NoDup (interface_ids sample_nodes)
  ∧ _get_interfaces sample_nodes !! "x1" = Some (mkIfaceEntry "clk" "external" "output")
  ∧ get_dataflow_ips_interfaces sample_dataflow !! "i3"
    = Some (mkIfaceEntry "hdmi" "HSync" "input").
Proof.
  assert (NoDup (interface_ids sample_nodes)) as Hunique.
  { by_computation. }
  split; [exact Hunique|].
  destruct (interface_index_exact sample_nodes sample_connections Hunique)
    as [Hall Hips].
  split.
  - apply Hall. exists sample_input, (mkInterface "x1" "external" "output").
    split; [by_computation|]. split; [by_computation|]. split; reflexivity.
  - apply Hips. exists sample_core_b, (mkInterface "i3" "HSync" "input").
    split; [by_computation|]. split; [reflexivity|].
    split; [by_computation|]. split; reflexivity.
Defined.

(** C7: the lookup by id reads the index built over all the nodes of the
    graph: it finds an entry exactly when the id belongs to an interface of
    an IP-core node or of a metanode, the entry found describes an interface
    of the graph with that id (the last one in iteration order), and an id
    that no node of the graph carries yields [None]. *)
Theorem find_interface_by_id_all_nodes (d : Dataflow) (k : string) :
  find_dataflow_interface_by_id d k = _get_interfaces (nodes (graph d)) !! k
  ∧ find_dataflow_interface_by_id d k = last_assigned k (nodes (graph d))
  ∧ (is_Some (find_dataflow_interface_by_id d k)
     ↔ core_interface d k ∨ metanode_interface d k)
  ∧ match find_dataflow_interface_by_id d k with
    | Some e =>
        ∃ node interface,
          node ∈ nodes (graph d) ∧ interface ∈ nd_interfaces node ∧
          intf_id interface = k ∧
          e = {| node_name := nd_name node;
                 iface_name := intf_name interface;
                 iface_dir := intf_direction interface |}
    | None =>
        ∀ node interface,
          node ∈ nodes (graph d) → interface ∈ nd_interfaces node →
          intf_id interface ≠ k
    end.
Proof.
  assert (find_dataflow_interface_by_id d k = _get_interfaces (nodes (graph d)) !! k)
    as Hfind.
  { unfold find_dataflow_interface_by_id. simpl.
    destruct (in_keys k _) eqn:Hkeys; [done|].
    destruct (_ !! k) eqn:Hlookup; [|done].
    assert (in_keys k (_get_interfaces (nodes (graph d))) = true); [|congruence].
    apply in_keys_lookup. by rewrite Hlookup. }
  split; [done|]. rewrite Hfind, get_interfaces_lookup. split; [done|]. split.
  - rewrite last_assigned_is_Some, elem_of_interface_ids.
    unfold core_interface, metanode_interface, indexes. split.
    + intros (e & node & i & Hn & Hi & Hk & _).
      destruct (_is_external_metanode node) eqn:Hc; [right|left]; by exists node, i.
    + intros [(node & i & Hn & _ & Hi & Hk)|(node & i & Hn & _ & Hi & Hk)];
        eexists; by exists node, i.
  - destruct (last_assigned k (nodes (graph d))) as [e|] eqn:Hlast.
    + by apply last_assigned_Some.
    + intros node i Hn Hi Hk.
      assert (is_Some (last_assigned k (nodes (graph d)))) as [? ?]; [|congruence].
      apply last_assigned_is_Some, elem_of_interface_ids.
      eexists. by exists node, i.
Qed.

(** ** Partition of the connections *)

(** C3: the IP-core connections are the connections of the graph, in the
    graph's order, whose ["from"] and ["to"] are both keys of the index of
    the IP-core interfaces, that is, ids of interfaces of IP-core nodes; a
    connection with an endpoint that is no such id (the id of a metanode
    interface, or of no interface at all) is left out, and the function
    returns its list for every graph. *)
Theorem ip_connections_exact (d : Dataflow) :
  get_dataflow_ip_connections d
  = filter (λ c, is_Some (get_dataflow_ips_interfaces d !! conn_from c)
                 ∧ is_Some (get_dataflow_ips_interfaces d !! conn_to c))
      (connections (graph d))
  ∧ (∀ c, c ∈ get_dataflow_ip_connections d
       ↔ c ∈ connections (graph d)
         ∧ core_interface d (conn_from c) ∧ core_interface d (conn_to c))
  ∧ (∀ c, ¬ core_interface d (conn_from c) ∨ ¬ core_interface d (conn_to c)
       → c ∉ get_dataflow_ip_connections d).
Proof.
  assert (∀ c, c ∈ get_dataflow_ip_connections d
            ↔ c ∈ connections (graph d)
              ∧ core_interface d (conn_from c) ∧ core_interface d (conn_to c))
    as Hmem.
  { intros c. unfold get_dataflow_ip_connections. simpl.
    by rewrite elem_of_comprehension, andb_true_iff, !in_keys_ips. }
  split; [|split; [done|]].
  - unfold get_dataflow_ip_connections. simpl. apply comprehension_filter.
    intros c. by rewrite andb_true_iff, !in_keys_lookup.
  - intros c Hout [_ [Hfrom Hto]]%Hmem. tauto.
Qed.

Lemma ip_connections_exact_witness :
  get_dataflow_ip_connections sample_dataflow = [mkConnection "i2" "i3"]
  ∧ ¬ core_interface sample_dataflow "nowhere"
  ∧ mkConnection "i2" "nowhere" ∉ get_dataflow_ip_connections sample_dataflow.
Proof.
  assert (¬ core_interface sample_dataflow "nowhere") as Hdangling.
  { rewrite core_interface_ids. by_computation. }
  split; [reflexivity|]. split; [exact Hdangling|].
  apply (ip_connections_exact sample_dataflow). right. exact Hdangling.
Defined.

(** C4: the external connections are the connections of the graph, in the
    graph's order, of which at least one endpoint is a key of the index of
    the metanode interfaces, that is, the id of an interface of a metanode;
    such a connection is in the result as many times as the graph lists it,
    so a connection that the graph lists once occurs once, whether one or
    both of its endpoints are external. *)
Theorem external_connections_exact (d : Dataflow) :
  get_dataflow_external_connections d
  = filter (λ c, is_Some (get_dataflow_externals_interfaces d !! conn_from c)
                 ∨ is_Some (get_dataflow_externals_interfaces d !! conn_to c))
      (connections (graph d))
  ∧ (∀ c, c ∈ get_dataflow_external_connections d
       ↔ c ∈ connections (graph d)
         ∧ (metanode_interface d (conn_from c) ∨ metanode_interface d (conn_to c)))
  ∧ (∀ c, metanode_interface d (conn_from c) ∨ metanode_interface d (conn_to c)
       → count_occ (decide_rel (=)) (get_dataflow_external_connections d) c
         = count_occ (decide_rel (=)) (connections (graph d)) c).
Proof.
  unfold get_dataflow_external_connections. simpl. split; [|split].
  - apply comprehension_filter.
    intros c. by rewrite orb_true_iff, !in_keys_lookup.
  - intros c. by rewrite elem_of_comprehension, orb_true_iff, !in_keys_externals.
  - intros c Htouch. rewrite comprehension_count.
    rewrite <- !in_keys_externals, <- orb_true_iff in Htouch. by rewrite Htouch.
Qed.

Lemma external_connections_exact_witness :
  get_dataflow_external_connections sample_dataflow
  = [mkConnection "x1" "i1"; mkConnection "i2" "x2"]
  ∧ metanode_interface sample_dataflow "x1"
  ∧ count_occ (decide_rel (=)) (get_dataflow_external_connections sample_dataflow)
      (mkConnection "x1" "i1") = 1.
Proof.
  assert (metanode_interface sample_dataflow "x1") as Hexternal.
  { rewrite metanode_interface_ids. by_computation. }
  split; [reflexivity|]. split; [exact Hexternal|].
  destruct (external_connections_exact sample_dataflow) as (_ & _ & Hcount).
  rewrite (Hcount (mkConnection "x1" "i1")); [reflexivity|].
  left. exact Hexternal.
Defined.

(** C1: in a graph whose interface ids are unique, a connection of the
    graph that touches a metanode interface is among the external
    connections and not among the IP-core connections, and a connection of
    the graph whose two endpoints are IP-core interfaces is among the
    IP-core connections and not among the external ones. *)
Theorem connections_partition (d : Dataflow) (c : Connection)
    (Hunique : NoDup (interface_ids (nodes (graph d))))
    (Hc : c ∈ connections (graph d)) :
  (metanode_interface d (conn_from c) ∨ metanode_interface d (conn_to c)
   → c ∈ get_dataflow_external_connections d
     ∧ c ∉ get_dataflow_ip_connections d)
  ∧ (core_interface d (conn_from c) ∧ core_interface d (conn_to c)
     → c ∈ get_dataflow_ip_connections d
       ∧ c ∉ get_dataflow_external_connections d).
Proof.
  unfold get_dataflow_external_connections, get_dataflow_ip_connections. simpl.
  rewrite !elem_of_comprehension, andb_true_iff, orb_true_iff.
  rewrite !in_keys_ips, !in_keys_externals.
  pose proof (unique_ids_separate d (conn_from c) Hunique) as Hfrom.
  pose proof (unique_ids_separate d (conn_to c) Hunique) as Hto.
  tauto.
Qed.

Lemma connections_partition_witness :
  NoDup (interface_ids (nodes (graph sample_dataflow)))
  ∧ mkConnection "x1" "i1" ∈ connections (graph sample_dataflow)
  ∧ metanode_interface sample_dataflow "x1"
  ∧ mkConnection "x1" "i1" ∈ get_dataflow_external_connections sample_dataflow
  ∧ mkConnection "x1" "i1" ∉ get_dataflow_ip_connections sample_dataflow.
Proof.
  assert (NoDup (interface_ids (nodes (graph sample_dataflow)))) as Hunique
    by by_computation.
  assert (mkConnection "x1" "i1" ∈ connections (graph sample_dataflow)) as Hc
    by by_computation.
  assert (metanode_interface sample_dataflow "x1") as Hexternal.
  { rewrite metanode_interface_ids. by_computation. }
  split; [exact Hunique|]. split; [exact Hc|]. split; [exact Hexternal|].
  apply (connections_partition sample_dataflow (mkConnection "x1" "i1") Hunique Hc).
  left. exact Hexternal.
Defined.

(** ** Lookups by name *)

(** C5: the lookup in the specification goes by type, then by name: its
    result is the first interface called [iface_name] among the interfaces
    of the nodes of type [node_type], taken in the order of the
    specification; it is [None] when no node has that type, and it is [None]
    when no interface of a node of that type has that name. *)
Theorem find_spec_interface_type_then_name (specification : Specification)
    (node_type iface_name : string) :
  find_spec_interface_by_name specification node_type iface_name
  = type_then_name (spec_nodes specification) node_type iface_name
  ∧ (∀ interface,
       find_spec_interface_by_name specification node_type iface_name
       = Some interface →
       si_name interface = iface_name
       ∧ ∃ node, node ∈ spec_nodes specification ∧ sn_type node = node_type
                 ∧ interface ∈ sn_interfaces node)
  ∧ ((∀ node, node ∈ spec_nodes specification → sn_type node ≠ node_type)
     → find_spec_interface_by_name specification node_type iface_name = None)
  ∧ ((∀ node interface,
        node ∈ spec_nodes specification → sn_type node = node_type →
        interface ∈ sn_interfaces node → si_name interface ≠ iface_name)
     → find_spec_interface_by_name specification node_type iface_name = None).
Proof.
  unfold find_spec_interface_by_name. rewrite scan_spec_nodes_type_then_name.
  split; [done|]. split; [|split].
  - intros interface. apply type_then_name_Some.
  - intros Htype. apply type_then_name_None. intros node i Hn Hty.
    by destruct (Htype node).
  - apply type_then_name_None.
Qed.

Lemma find_spec_interface_type_then_name_witness :
  find_spec_interface_by_name sample_specification "uart" "rx"
  = Some (mkSpecInterface "rx" "input")
  ∧ (∀ node, node ∈ spec_nodes sample_specification → sn_type node ≠ "i2c")
  ∧ find_spec_interface_by_name sample_specification "i2c" "rx" = None.
Proof.
  split; [reflexivity|].
  assert (∀ node, node ∈ spec_nodes sample_specification → sn_type node ≠ "i2c")
    as Hunknown.
  { apply Forall_forall. by_computation. }
  split; [exact Hunknown|].
  destruct (find_spec_interface_type_then_name sample_specification "i2c" "rx")
    as (_ & _ & Hnone & _).
  exact (Hnone Hunknown).
Defined.

(** C8: the lookup of a node's type by the node's name returns the type of
    the first node of the graph, in the order of the node list, that carries
    the name, and [None] when no node of the graph carries it. *)
Theorem find_node_type_first_match (d : Dataflow) (name : string) :
  find_dataflow_node_type_by_name d name
  = nd_type <$> first_named (nodes (graph d)) name
  ∧ match find_dataflow_node_type_by_name d name with
    | Some type =>
        ∃ before node after,
          nodes (graph d) = before ++ node :: after ∧
          (∀ m, m ∈ before → nd_name m ≠ name) ∧
          nd_name node = name ∧ type = nd_type node
    | None => ∀ node, node ∈ nodes (graph d) → nd_name node ≠ name
    end.
Proof.
  unfold find_dataflow_node_type_by_name. split.
  - apply scan_nodes_by_name_first_named.
  - apply scan_nodes_by_name_first.
Qed.

(** ** The editor's specification *)

(** C9: the editor's specification holds the descriptors of the catalog
    entries, one per entry and in the catalog's order, followed by the
    external-input and the external-output descriptor, each of which has
    one interface; it has two nodes more than the catalog has entries, so
    a catalog of twelve IP-core types gives fourteen nodes. *)
Theorem editor_specification_nodes (catalog : list CatalogEntry) :
  length (spec_nodes (to_editor_specification catalog)) = length catalog + 2
  ∧ sn_type <$> spec_nodes (to_editor_specification catalog)
    = (ce_type <$> catalog) ++ ["External Input"; "External Output"]
  ∧ (∀ i entry, catalog !! i = Some entry →
       spec_nodes (to_editor_specification catalog) !! i = Some (descriptor entry))
  ∧ (∃ input output,
       drop (length catalog) (spec_nodes (to_editor_specification catalog))
       = [input; output]
       ∧ sn_type input = "External Input" ∧ sn_type output = "External Output"
       ∧ length (sn_interfaces input) = 1 ∧ length (sn_interfaces output) = 1
       ∧ si_direction <$> sn_interfaces input = ["output"]
       ∧ si_direction <$> sn_interfaces output = ["input"])
  ∧ (length catalog = 12
     → length (spec_nodes (to_editor_specification catalog)) = 14).
Proof.
  unfold to_editor_specification. simpl.
  assert (length ((descriptor <$> catalog)
                    ++ [external_input_descriptor; external_output_descriptor])
          = length catalog + 2) as Hlength.
  { by rewrite length_app, length_fmap. }
  split; [done|]. split; [|split; [|split]].
  - rewrite fmap_app, <- list_fmap_compose. done.
  - intros i entry Hi. rewrite lookup_app_l.
    + by rewrite list_lookup_fmap, Hi.
    + rewrite length_fmap. by eapply lookup_lt_Some.
  - exists external_input_descriptor, external_output_descriptor.
    split; [|done].
    rewrite drop_app_length'; [done|]. by rewrite length_fmap.
  - intros H12. rewrite Hlength, H12. done.
Qed.

Lemma editor_specification_nodes_witness :
  length hdmi_catalog = 12
  ∧ length (spec_nodes (to_editor_specification hdmi_catalog)) = 14.
Proof.
  split; [reflexivity|].
  apply (editor_specification_nodes hdmi_catalog). reflexivity.
Defined.

(** * Further properties of the helpers *)

(** ** More on the index *)

Lemma assignments_app ns1 ns2 :
  assignments (ns1 ++ ns2) = assignments ns1 ++ assignments ns2.
Proof. apply bind_app. Qed.

Lemma last_assigned_app ns1 ns2 k :
  last_assigned k (ns1 ++ ns2)
  = match last_assigned k ns2 with
    | Some e => Some e
    | None => last_assigned k ns1
    end.
Proof.
  unfold last_assigned. rewrite assignments_app, filter_app, last_app.
  by destruct (last (filter _ (assignments ns2))).
Qed.

Lemma dom_get_interfaces ns :
  dom (_get_interfaces ns) = list_to_set (interface_ids ns).
Proof.
  apply set_eq. intros k.
  by rewrite elem_of_dom, get_interfaces_lookup, last_assigned_is_Some,
    elem_of_list_to_set.
Qed.

Lemma get_interfaces_indexes ns k e :
  _get_interfaces ns !! k = Some e → indexes ns k e.
Proof. rewrite get_interfaces_lookup. apply last_assigned_Some. Qed.

Lemma get_interfaces_unique ns k e :
  NoDup (interface_ids ns) → indexes ns k e → _get_interfaces ns !! k = Some e.
Proof.
  intros Hunique He.
  destruct (_get_interfaces ns !! k) as [e'|] eqn:Hlookup.
  - f_equal. apply get_interfaces_indexes in Hlookup.
    by apply (indexes_functional ns k).
  - assert (is_Some (_get_interfaces ns !! k)) as [? ?]; [|congruence].
    rewrite get_interfaces_lookup.
    apply last_assigned_is_Some, elem_of_interface_ids. by exists e.
Qed.

Lemma find_interface_by_id_lookup d k :
  find_dataflow_interface_by_id d k = _get_interfaces (nodes (graph d)) !! k.
Proof.
  unfold find_dataflow_interface_by_id. simpl.
  destruct (in_keys k _) eqn:Hkeys; [done|].
  destruct (_ !! k) eqn:Hall; [|done].
  assert (in_keys k (_get_interfaces (nodes (graph d))) = true); [|congruence].
  apply in_keys_lookup. by rewrite Hall.
Qed.

Lemma interface_ids_cons n ns :
  interface_ids (n :: ns) = (intf_id <$> nd_interfaces n) ++ interface_ids ns.
Proof. reflexivity. Qed.

Lemma interface_ids_filter_subseteq (f : Node → bool) ns k :
  k ∈ interface_ids (List.filter f ns) → k ∈ interface_ids ns.
Proof.
  rewrite elem_of_ids_filter, elem_of_interface_ids.
  intros (node & i & Hn & _ & Hi & Hk). eexists. by exists node, i.
Qed.

Lemma NoDup_ids_filter (f : Node → bool) ns :
  NoDup (interface_ids ns) → NoDup (interface_ids (List.filter f ns)).
Proof.
  induction ns as [|n ns IH]; [done|].
  rewrite interface_ids_cons. intros (Hn & Hsep & Hns)%NoDup_app.
  cbn [List.filter]. destruct (f n); [|by apply IH].
  rewrite interface_ids_cons. apply NoDup_app. split; [done|]. split; [|by apply IH].
  intros k Hk Hin. apply (Hsep k Hk). by eapply interface_ids_filter_subseteq.
Qed.

Lemma length_interface_ids ns : length (interface_ids ns) = interface_count ns.
Proof.
  unfold interface_count. induction ns as [|n ns IH]; [done|].
  rewrite interface_ids_cons, length_app, length_fmap.
  cbn [sum_list_with]. by rewrite IH.
Qed.

Lemma size_list_to_set_le (l : list string) :
  (size (list_to_set l : gset string) ≤ length l)%nat
  ∧ (size (list_to_set l : gset string) = length l ↔ NoDup l).
Proof.
  induction l as [|x l [IHle IHeq]]; simpl.
  - split; [done|]. split; [constructor|done].
  - destruct (decide (x ∈ l)) as [Hin|Hout].
    + assert (({[x]} ∪ list_to_set l : gset string) = list_to_set l) as ->.
      { apply subseteq_union_1_L, singleton_subseteq_l. by apply elem_of_list_to_set. }
      split; [lia|]. split; [lia|]. by intros [? _]%NoDup_cons.
    + rewrite size_union, size_singleton
        by (apply disjoint_singleton_l; by rewrite elem_of_list_to_set).
      split; [lia|]. rewrite NoDup_cons, <- IHeq. split; [|lia].
      intros Hsize. split; [done|lia].
Qed.

Lemma in_keys_false_iff k (m : gmap string IfaceEntry) :
  in_keys k m = false ↔ m !! k = None.
Proof.
  rewrite <- not_true_iff_false, in_keys_lookup, eq_None_not_Some. done.
Qed.

Lemma interface_of_some_kind d k :
  k ∈ interface_ids (nodes (graph d)) ↔ core_interface d k ∨ metanode_interface d k.
Proof.
  rewrite elem_of_interface_ids. unfold core_interface, metanode_interface, indexes.
  split.
  - intros (e & node & i & Hn & Hi & Hk & _).
    destruct (_is_external_metanode node) eqn:Hc; [right|left]; by exists node, i.
  - intros [(node & i & Hn & _ & Hi & Hk)|(node & i & Hn & _ & Hi & Hk)];
      eexists; by exists node, i.
Qed.

(** X1: the index of a concatenation of node lists is the index of the
    second list completed by that of the first: ids of the later nodes take
    precedence. *)
Theorem get_interfaces_app (ns1 ns2 : list Node) :
  _get_interfaces (ns1 ++ ns2) = _get_interfaces ns2 ∪ _get_interfaces ns1.
Proof.
  apply map_eq. intros k.
  rewrite lookup_union, !get_interfaces_lookup, last_assigned_app.
  destruct (last_assigned k ns2), (last_assigned k ns1); done.
Qed.

(** X2: the index never has more keys than the nodes have interfaces, and
    it has as many exactly when the interface ids are unique. *)
Theorem get_interfaces_size (ns : list Node) :
  (size (_get_interfaces ns) ≤ interface_count ns)%nat
  ∧ (size (_get_interfaces ns) = interface_count ns ↔ NoDup (interface_ids ns)).
Proof.
  rewrite <- size_dom, dom_get_interfaces, <- length_interface_ids.
  apply size_list_to_set_le.
Qed.

(** X3: whether or not ids are unique, the keys of the index of the
    metanode interfaces are the ids of the interfaces of metanodes and every
    entry in it describes an interface of a metanode; likewise the index of
    the IP-core interfaces holds interfaces of IP-core nodes only. *)
Theorem partial_indexes_sound (d : Dataflow) (k : string) :
  (is_Some (get_dataflow_externals_interfaces d !! k) ↔ metanode_interface d k)
  ∧ (is_Some (get_dataflow_ips_interfaces d !! k) ↔ core_interface d k)
  ∧ (∀ e, get_dataflow_externals_interfaces d !! k = Some e →
       ∃ node interface,
         node ∈ nodes (graph d) ∧ _is_external_metanode node = true ∧
         interface ∈ nd_interfaces node ∧ intf_id interface = k ∧
         e = {| node_name := nd_name node;
                iface_name := intf_name interface;
                iface_dir := intf_direction interface |})
  ∧ (∀ e, get_dataflow_ips_interfaces d !! k = Some e →
       ∃ node interface,
         node ∈ nodes (graph d) ∧ _is_external_metanode node = false ∧
         interface ∈ nd_interfaces node ∧ intf_id interface = k ∧
         e = {| node_name := nd_name node;
                iface_name := intf_name interface;
                iface_dir := intf_direction interface |}).
Proof.
  split; [by rewrite <- in_keys_lookup, in_keys_externals|].
  split; [by rewrite <- in_keys_lookup, in_keys_ips|].
  unfold get_dataflow_externals_interfaces, get_dataflow_ips_interfaces,
    get_dataflow_metanodes, get_dataflow_ip_nodes.
  split; intros e (node & i & [Hn Hc]%elem_of_comprehension & Hi & Hk & He)
                  %get_interfaces_indexes; exists node, i.
  - done.
  - by rewrite negb_true_iff in Hc.
Qed.

Lemma partial_indexes_sound_witness :
  get_dataflow_externals_interfaces shared_id_dataflow !! "a"
  = Some (mkIfaceEntry "clk_out" "external" "input")
  ∧ ∃ node interface,
      node ∈ nodes (graph shared_id_dataflow) ∧ _is_external_metanode node = true ∧
      interface ∈ nd_interfaces node ∧ intf_id interface = "a" ∧
      mkIfaceEntry "clk_out" "external" "input"
      = {| node_name := nd_name node;
           iface_name := intf_name interface;
           iface_dir := intf_direction interface |}.
Proof.
  split; [reflexivity|].
  destruct (partial_indexes_sound shared_id_dataflow "a") as (_ & _ & Hext & _).
  apply Hext. reflexivity.
Defined.

(** X4: every key of the index over all the nodes of a graph is a key of
    the index of the IP-core interfaces or of the index of the metanode
    interfaces, and conversely. *)
Theorem index_keys_cover (d : Dataflow) :
  dom (_get_interfaces (nodes (graph d)))
  = dom (get_dataflow_ips_interfaces d) ∪ dom (get_dataflow_externals_interfaces d).
Proof.
  apply set_eq. intros k.
  rewrite elem_of_union, !elem_of_dom, <- !in_keys_lookup.
  rewrite in_keys_ips, in_keys_externals, in_keys_get_interfaces.
  apply interface_of_some_kind.
Qed.

(** X5: in a graph with unique interface ids the two partial indexes have
    no key in common and together they are the index over all the nodes, so
    the lookup by id finds what the index of the id's own kind holds. *)
Theorem index_split (d : Dataflow)
    (Hunique : NoDup (interface_ids (nodes (graph d)))) :
  get_dataflow_ips_interfaces d ##ₘ get_dataflow_externals_interfaces d
  ∧ _get_interfaces (nodes (graph d))
    = get_dataflow_ips_interfaces d ∪ get_dataflow_externals_interfaces d
  ∧ ∀ k, find_dataflow_interface_by_id d k
         = match get_dataflow_ips_interfaces d !! k with
           | Some e => Some e
           | None => get_dataflow_externals_interfaces d !! k
           end.
Proof.
  assert (get_dataflow_ips_interfaces d ##ₘ get_dataflow_externals_interfaces d)
    as Hdisjoint.
  { apply map_disjoint_dom, elem_of_disjoint. intros k.
    rewrite !elem_of_dom, <- !in_keys_lookup, in_keys_ips, in_keys_externals.
    by apply unique_ids_separate. }
  assert (∀ k, _get_interfaces (nodes (graph d)) !! k
               = match get_dataflow_ips_interfaces d !! k with
                 | Some e => Some e
                 | None => get_dataflow_externals_interfaces d !! k
                 end) as Hlookup.
  { intros k.
    destruct (_get_interfaces (nodes (graph d)) !! k) as [e|] eqn:Hall.
    - apply get_interfaces_indexes in Hall as (node & i & Hn & Hi & Hk & He).
      unfold get_dataflow_ips_interfaces, get_dataflow_externals_interfaces,
        get_dataflow_ip_nodes, get_dataflow_metanodes.
      destruct (_is_external_metanode node) eqn:Hc.
      + assert (_get_interfaces
                  (List.filter (λ node, negb (_is_external_metanode node))
                     (nodes (graph d))) !! k = None) as ->.
        { apply eq_None_not_Some. intros Hsome.
          apply in_keys_lookup, (in_keys_ips d) in Hsome.
          apply (unique_ids_separate d k Hunique Hsome). by exists node, i. }
        symmetry. apply get_interfaces_unique; [by apply NoDup_ids_filter|].
        exists node, i. by rewrite elem_of_comprehension.
      + erewrite (get_interfaces_unique _ k e); [done|by apply NoDup_ids_filter|].
        exists node, i. by rewrite elem_of_comprehension, Hc.
    - apply in_keys_false_iff, not_true_iff_false in Hall.
      rewrite in_keys_get_interfaces, interface_of_some_kind in Hall.
      rewrite <- in_keys_ips, <- in_keys_externals in Hall.
      destruct (in_keys k (get_dataflow_ips_interfaces d)) eqn:Hips;
        [by destruct Hall; left|].
      destruct (in_keys k (get_dataflow_externals_interfaces d)) eqn:Hext;
        [by destruct Hall; right|].
      apply in_keys_false_iff in Hips, Hext. by rewrite Hips, Hext. }
  split; [done|]. split.
  - apply map_eq. intros k. rewrite lookup_union, Hlookup.
    by destruct (_ !! k), (_ !! k).
  - intros k. by rewrite find_interface_by_id_lookup.
Qed.

Lemma index_split_witness :
  NoDup (interface_ids (nodes (graph sample_dataflow)))
  ∧ find_dataflow_interface_by_id sample_dataflow "x2"
    = match get_dataflow_ips_interfaces sample_dataflow !! "x2" with
      | Some e => Some e
      | None => get_dataflow_externals_interfaces sample_dataflow !! "x2"
      end.
Proof.
  assert (NoDup (interface_ids (nodes (graph sample_dataflow)))) as Hunique
    by by_computation.
  split; [exact Hunique|].
  apply (index_split sample_dataflow Hunique).
Defined.

(** ** More on the partition of the connections *)

Section more_comprehension.
Context {A : Type}.
Implicit Types (f g : A → bool) (l : list A).

Lemma comprehension_ext f g l :
  (∀ x, x ∈ l → f x = g x) → List.filter f l = List.filter g l.
Proof.
  intros Hfg. apply filter_ext_in. intros x Hx. by apply Hfg, list_elem_of_In.
Qed.

Lemma comprehension_exclusive_length f g l :
  (∀ x, x ∈ l → f x = true → g x = false) →
  (length (List.filter f l) + length (List.filter g l) ≤ length l)%nat.
Proof.
  induction l as [|a l IH]; intros Hfg; [done|]. cbn [List.filter].
  assert (length (List.filter f l) + length (List.filter g l) ≤ length l)%nat
    by (apply IH; intros x Hx; apply Hfg; by right).
  pose proof (Hfg a (list_elem_of_here _ _)) as Ha.
  destruct (f a); [rewrite Ha by done|destruct (g a)]; simpl; lia.
Qed.

Lemma comprehension_fmap {B} (h : B → A) f (l : list B) :
  List.filter f (h <$> l) = h <$> List.filter (λ x, f (h x)) l.
Proof.
  induction l as [|b l IH]; [done|]. cbn [fmap list_fmap List.filter].
  destruct (f (h b)); cbn [fmap list_fmap]; by rewrite <- IH.
Qed.

Lemma comprehension_idemp f l :
  List.filter f (List.filter f l) = List.filter f l.
Proof.
  induction l as [|a l IH]; [done|]. cbn [List.filter].
  destruct (f a) eqn:Hfa; [|done]. cbn [List.filter]. by rewrite Hfa, IH.
Qed.

Lemma comprehension_none f l :
  (∀ x, x ∈ l → f x = false) → List.filter f l = [].
Proof.
  induction l as [|a l IH]; intros Hf; [done|]. cbn [List.filter].
  rewrite (Hf a) by left. apply IH. intros x Hx. apply Hf. by right.
Qed.

Lemma comprehension_all f l :
  (∀ x, x ∈ l → f x = true) → List.filter f l = l.
Proof.
  induction l as [|a l IH]; intros Hf; [done|]. cbn [List.filter].
  rewrite (Hf a) by left. f_equal. apply IH. intros x Hx. apply Hf. by right.
Qed.
End more_comprehension.

Lemma in_keys_externals_negb d k :
  NoDup (interface_ids (nodes (graph d))) →
  k ∈ interface_ids (nodes (graph d)) →
  in_keys k (get_dataflow_externals_interfaces d)
  = negb (in_keys k (get_dataflow_ips_interfaces d)).
Proof.
  intros Hunique Hk%interface_of_some_kind.
  pose proof (unique_ids_separate d k Hunique) as Hsep.
  rewrite <- in_keys_ips, <- in_keys_externals in Hk, Hsep.
  destruct (in_keys k (get_dataflow_ips_interfaces d)),
    (in_keys k (get_dataflow_externals_interfaces d)); simpl; try done.
  - by destruct Hsep.
  - by destruct Hk.
Qed.

(** X6: in a graph with unique interface ids in which both ends of every
    connection are interface ids of the graph, the IP-core connections and
    the external connections together are the connections of the graph:
    nothing is lost and nothing is reported twice. *)
Theorem connections_cover (d : Dataflow)
    (Hunique : NoDup (interface_ids (nodes (graph d))))
    (Hclosed : ∀ c, c ∈ connections (graph d) →
                 conn_from c ∈ interface_ids (nodes (graph d))
                 ∧ conn_to c ∈ interface_ids (nodes (graph d))) :
  get_dataflow_ip_connections d ++ get_dataflow_external_connections d
  ≡ₚ connections (graph d).
Proof.
  unfold get_dataflow_ip_connections, get_dataflow_external_connections. simpl.
  rewrite (comprehension_ext
             (λ conn, in_keys (conn_from conn) (get_dataflow_externals_interfaces d)
                      || in_keys (conn_to conn) (get_dataflow_externals_interfaces d))
             (λ conn, negb (in_keys (conn_from conn) (get_dataflow_ips_interfaces d)
                            && in_keys (conn_to conn) (get_dataflow_ips_interfaces d)))).
  - rewrite Permutation_app_comm. apply comprehension_split.
  - intros c [Hfrom Hto]%Hclosed.
    rewrite !in_keys_externals_negb by done. by rewrite negb_andb.
Qed.

Lemma connections_cover_witness :
  NoDup (interface_ids (nodes (graph closed_dataflow)))
  ∧ get_dataflow_ip_connections closed_dataflow
      ++ get_dataflow_external_connections closed_dataflow
    ≡ₚ connections (graph closed_dataflow).
Proof.
  assert (NoDup (interface_ids (nodes (graph closed_dataflow)))) as Hunique
    by by_computation.
  split; [exact Hunique|].
  apply (connections_cover closed_dataflow Hunique).
  apply Forall_forall. by_computation.
Defined.

(** X7: in a graph with unique interface ids the two lists of connections
    together are never longer than the graph's list of connections. *)
Theorem connections_bound (d : Dataflow)
    (Hunique : NoDup (interface_ids (nodes (graph d)))) :
  (length (get_dataflow_ip_connections d)
   + length (get_dataflow_external_connections d)
   ≤ length (connections (graph d)))%nat.
Proof.
  unfold get_dataflow_ip_connections, get_dataflow_external_connections. simpl.
  apply comprehension_exclusive_length. intros c _.
  rewrite andb_true_iff, orb_false_iff, !in_keys_ips.
  rewrite <- !not_true_iff_false, !in_keys_externals.
  intros [Hfrom Hto]. split; intros Hmeta.
  - exact (unique_ids_separate d _ Hunique Hfrom Hmeta).
  - exact (unique_ids_separate d _ Hunique Hto Hmeta).
Qed.

Lemma connections_bound_witness :
  NoDup (interface_ids (nodes (graph sample_dataflow)))
  ∧ (length (get_dataflow_ip_connections sample_dataflow)
     + length (get_dataflow_external_connections sample_dataflow)
     ≤ length (connections (graph sample_dataflow)))%nat.
Proof.
  assert (NoDup (interface_ids (nodes (graph sample_dataflow)))) as Hunique
    by by_computation.
  split; [exact Hunique|]. exact (connections_bound sample_dataflow Hunique).
Defined.

(** X8: a connection can be both an IP-core connection and an external
    connection only through an end whose id is carried by an interface of an
    IP-core node and by an interface of a metanode. *)
Theorem connections_overlap (d : Dataflow) (c : Connection)
    (Hip : c ∈ get_dataflow_ip_connections d)
    (Hext : c ∈ get_dataflow_external_connections d) :
  ∃ k, (k = conn_from c ∨ k = conn_to c)
       ∧ core_interface d k ∧ metanode_interface d k.
Proof.
  unfold get_dataflow_ip_connections, get_dataflow_external_connections in *.
  simpl in *.
  apply elem_of_comprehension in Hip as [_ Hip].
  apply elem_of_comprehension in Hext as [_ Hext].
  rewrite andb_true_iff, !in_keys_ips in Hip.
  rewrite orb_true_iff, !in_keys_externals in Hext.
  destruct Hip as [Hfrom Hto], Hext as [Hmeta|Hmeta].
  - exists (conn_from c). auto.
  - exists (conn_to c). auto.
Qed.

Lemma connections_overlap_witness :
  mkConnection "a" "b" ∈ get_dataflow_ip_connections shared_id_dataflow
  ∧ mkConnection "a" "b" ∈ get_dataflow_external_connections shared_id_dataflow
  ∧ ∃ k, (k = "a" ∨ k = "b")
         ∧ core_interface shared_id_dataflow k
         ∧ metanode_interface shared_id_dataflow k.
Proof.
  assert (mkConnection "a" "b" ∈ get_dataflow_ip_connections shared_id_dataflow)
    as Hip by by_computation.
  assert (mkConnection "a" "b"
          ∈ get_dataflow_external_connections shared_id_dataflow)
    as Hext by by_computation.
  split; [exact Hip|]. split; [exact Hext|].
  exact (connections_overlap shared_id_dataflow (mkConnection "a" "b") Hip Hext).
Defined.

(** X9: a connection one end of which is the id of no interface of the
    graph is never an IP-core connection, and it is an external connection
    exactly when its other end is a metanode interface. *)
Theorem dangling_connection (d : Dataflow) (c : Connection)
    (Hc : c ∈ connections (graph d)) :
  (conn_to c ∉ interface_ids (nodes (graph d)) →
   (c ∉ get_dataflow_ip_connections d)
   ∧ (c ∈ get_dataflow_external_connections d
      ↔ metanode_interface d (conn_from c)))
  ∧ (conn_from c ∉ interface_ids (nodes (graph d)) →
     (c ∉ get_dataflow_ip_connections d)
     ∧ (c ∈ get_dataflow_external_connections d
        ↔ metanode_interface d (conn_to c))).
Proof.
  rewrite !interface_of_some_kind.
  unfold get_dataflow_ip_connections, get_dataflow_external_connections. simpl.
  rewrite !elem_of_comprehension, andb_true_iff, orb_true_iff.
  rewrite !in_keys_ips, !in_keys_externals. tauto.
Qed.

Lemma dangling_connection_witness :
  mkConnection "i2" "nowhere" ∈ connections (graph sample_dataflow)
  ∧ ("nowhere" ∉ interface_ids (nodes (graph sample_dataflow)))
  ∧ (mkConnection "i2" "nowhere" ∉ get_dataflow_ip_connections sample_dataflow)
  ∧ (mkConnection "i2" "nowhere" ∈ get_dataflow_external_connections sample_dataflow
     ↔ metanode_interface sample_dataflow "i2").
Proof.
  assert (mkConnection "i2" "nowhere" ∈ connections (graph sample_dataflow))
    as Hc by by_computation.
  assert ("nowhere" ∉ interface_ids (nodes (graph sample_dataflow)))
    as Hdangling by by_computation.
  split; [exact Hc|]. split; [exact Hdangling|].
  destruct (dangling_connection sample_dataflow (mkConnection "i2" "nowhere") Hc)
    as [Hto _].
  exact (Hto Hdangling).
Defined.

(** X10: the partition of the connections does not look at their
    direction: exchanging the two ends of every connection of a graph
    exchanges the two ends of every connection of both lists and changes
    nothing else. *)
Theorem connections_swap (ns : list Node) (cs : list Connection) :
  get_dataflow_ip_connections (mkDataflow (mkGraph ns (swap_connection <$> cs)))
  = swap_connection <$> get_dataflow_ip_connections (mkDataflow (mkGraph ns cs))
  ∧ get_dataflow_external_connections
      (mkDataflow (mkGraph ns (swap_connection <$> cs)))
    = swap_connection
        <$> get_dataflow_external_connections (mkDataflow (mkGraph ns cs)).
Proof.
  unfold get_dataflow_ip_connections, get_dataflow_external_connections,
    get_dataflow_ips_interfaces, get_dataflow_externals_interfaces,
    get_dataflow_ip_nodes, get_dataflow_metanodes.
  cbn [graph nodes connections]. rewrite !comprehension_fmap.
  split; f_equal; apply comprehension_ext; intros c _; simpl.
  - apply andb_comm.
  - apply orb_comm.
Qed.

(** ** The sub-graph of the IP cores and two edge cases *)

Lemma get_interfaces_no_interfaces ns :
  (∀ node, node ∈ ns → nd_interfaces node = []) → interface_ids ns = [].
Proof.
  induction ns as [|n ns IH]; intros Hnone; [done|].
  rewrite interface_ids_cons, (Hnone n) by left. simpl.
  apply IH. intros node Hn. apply Hnone. by right.
Qed.

Lemma in_keys_no_ids ns k :
  interface_ids ns = [] → in_keys k (_get_interfaces ns) = false.
Proof.
  intros Hnone. apply not_true_iff_false.
  rewrite in_keys_get_interfaces, Hnone. apply not_elem_of_nil.
Qed.

(** X11: the IP-core nodes of a graph with its IP-core connections form a
    graph that the partition leaves as it is: all its nodes are IP-core
    nodes, all its connections are IP-core connections, and it has no
    metanode and no external connection. *)
Theorem core_subgraph_fixed (d : Dataflow) :
  get_dataflow_ip_nodes (core_subgraph d) = nodes (graph (core_subgraph d))
  ∧ get_dataflow_metanodes (core_subgraph d) = []
  ∧ get_dataflow_ip_connections (core_subgraph d)
    = connections (graph (core_subgraph d))
  ∧ get_dataflow_external_connections (core_subgraph d) = []
  ∧ core_subgraph (core_subgraph d) = core_subgraph d.
Proof.
  assert (get_dataflow_ip_nodes (core_subgraph d) = get_dataflow_ip_nodes d)
    as Hnodes by apply comprehension_idemp.
  assert (get_dataflow_metanodes (core_subgraph d) = []) as Hmeta.
  { apply comprehension_none. intros node [_ Hc]%elem_of_comprehension.
    by apply negb_true_iff. }
  assert (get_dataflow_ip_connections (core_subgraph d)
          = get_dataflow_ip_connections d) as Hconns.
  { assert (get_dataflow_ips_interfaces (core_subgraph d)
            = get_dataflow_ips_interfaces d) as Hindex
      by (unfold get_dataflow_ips_interfaces; by rewrite Hnodes).
    unfold get_dataflow_ip_connections at 1. rewrite Hindex.
    cbn [core_subgraph graph connections].
    unfold get_dataflow_ip_connections. apply comprehension_idemp. }
  split; [done|]. split; [done|]. split; [done|]. split.
  - unfold get_dataflow_external_connections, get_dataflow_externals_interfaces.
    rewrite Hmeta. by apply comprehension_none.
  - unfold core_subgraph at 1. by rewrite Hnodes, Hconns.
Qed.

(** X12: when no node of a graph has an interface, and so when the graph
    has no node at all, no id resolves and both lists of connections are
    empty, whatever connections the graph lists. *)
Theorem no_interfaces (d : Dataflow)
    (Hnone : ∀ node, node ∈ nodes (graph d) → nd_interfaces node = []) :
  _get_interfaces (nodes (graph d)) = ∅
  ∧ (∀ k, find_dataflow_interface_by_id d k = None)
  ∧ get_dataflow_ip_connections d = []
  ∧ get_dataflow_external_connections d = [].
Proof.
  pose proof (get_interfaces_no_interfaces _ Hnone) as Hids.
  assert (∀ k, _get_interfaces (nodes (graph d)) !! k = None) as Hlookup.
  { intros k. by apply in_keys_false_iff, in_keys_no_ids. }
  split; [by apply map_empty|].
  split; [intros k; by rewrite find_interface_by_id_lookup|].
  split; apply comprehension_none; intros c _.
  - apply andb_false_iff. left. apply not_true_iff_false.
    rewrite in_keys_ips, core_interface_ids. intros Hk.
    apply interface_ids_filter_subseteq in Hk. rewrite Hids in Hk.
    by apply elem_of_nil in Hk.
  - apply orb_false_iff.
    split; apply not_true_iff_false;
      rewrite in_keys_externals, metanode_interface_ids; intros Hk;
      apply interface_ids_filter_subseteq in Hk; rewrite Hids in Hk;
      by apply elem_of_nil in Hk.
Qed.

Lemma no_interfaces_witness :
  (∀ node, node ∈ nodes (graph bare_dataflow) → nd_interfaces node = [])
  ∧ connections (graph bare_dataflow) = [mkConnection "a" "b"]
  ∧ get_dataflow_ip_connections bare_dataflow = []
  ∧ get_dataflow_external_connections bare_dataflow = [].
Proof.
  assert (∀ node, node ∈ nodes (graph bare_dataflow) → nd_interfaces node = [])
    as Hnone.
  { apply Forall_forall. by_computation. }
  split; [exact Hnone|]. split; [reflexivity|].
  destruct (no_interfaces bare_dataflow Hnone) as (_ & _ & Hip & Hext).
  split; [exact Hip|exact Hext].
Defined.

(** X13: in a graph none of whose nodes has one of the two reserved types,
    every node is an IP-core node, there is no external connection, and the
    lookup by id reads the index of the IP-core interfaces. *)
Theorem no_metanodes (d : Dataflow)
    (Hcores : ∀ node, node ∈ nodes (graph d) →
                nd_type node ≠ "External Input"
                ∧ nd_type node ≠ "External Output") :
  get_dataflow_ip_nodes d = nodes (graph d)
  ∧ get_dataflow_metanodes d = []
  ∧ get_dataflow_external_connections d = []
  ∧ (∀ k, find_dataflow_interface_by_id d k = get_dataflow_ips_interfaces d !! k).
Proof.
  assert (∀ node, node ∈ nodes (graph d) → _is_external_metanode node = false)
    as Hfalse.
  { intros node Hn. apply not_true_iff_false. rewrite is_external_metanode_iff.
    destruct (Hcores node Hn). unfold EXT_INPUT_NAME, EXT_OUTPUT_NAME. tauto. }
  assert (get_dataflow_ip_nodes d = nodes (graph d)) as Hnodes.
  { apply comprehension_all. intros node Hn. by rewrite Hfalse. }
  assert (get_dataflow_metanodes d = []) as Hmeta
    by by apply comprehension_none.
  split; [done|]. split; [done|]. split.
  - unfold get_dataflow_external_connections, get_dataflow_externals_interfaces.
    rewrite Hmeta. by apply comprehension_none.
  - intros k. rewrite find_interface_by_id_lookup.
    unfold get_dataflow_ips_interfaces. by rewrite Hnodes.
Qed.

Lemma no_metanodes_witness :
  (∀ node, node ∈ nodes (graph cores_only_dataflow) →
     nd_type node ≠ "External Input" ∧ nd_type node ≠ "External Output")
  ∧ get_dataflow_ip_nodes cores_only_dataflow = nodes (graph cores_only_dataflow)
  ∧ get_dataflow_external_connections cores_only_dataflow = [].
Proof.
  assert (∀ node, node ∈ nodes (graph cores_only_dataflow) →
            nd_type node ≠ "External Input" ∧ nd_type node ≠ "External Output")
    as Hcores.
  { apply Forall_forall. by_computation. }
  split; [exact Hcores|].
  destruct (no_metanodes cores_only_dataflow Hcores) as (Hnodes & _ & Hext & _).
  split; [exact Hnodes|exact Hext].
Defined.

(** ** Lookups that follow one another *)

Lemma scan_nodes_by_name_unique ns node :
  NoDup (nd_name <$> ns) → node ∈ ns →
  scan_nodes_by_name ns (nd_name node) = Some (nd_type node).
Proof.
  induction ns as [|a ns IH]; intros Hnames Hn.
  - by apply elem_of_nil in Hn.
  - rewrite fmap_cons in Hnames. apply NoDup_cons in Hnames as [Ha Hnames].
    simpl. apply elem_of_cons in Hn as [->|Hn].
    + by rewrite bool_decide_eq_true_2.
    + rewrite bool_decide_eq_false_2; [by apply IH|].
      intros Heq. apply Ha. rewrite Heq. by apply list_elem_of_fmap_2.
Qed.

Lemma resolve_owner d node interface :
  NoDup (interface_ids (nodes (graph d))) →
  NoDup (nd_name <$> nodes (graph d)) →
  node ∈ nodes (graph d) → interface ∈ nd_interfaces node →
  ∃ e, find_dataflow_interface_by_id d (intf_id interface) = Some e
       ∧ find_dataflow_node_type_by_name d (node_name e) = Some (nd_type node).
Proof.
  intros Hids Hnames Hn Hi. exists (iface_entry node interface). split.
  - rewrite find_interface_by_id_lookup. apply get_interfaces_unique; [done|].
    by exists node, interface.
  - by apply scan_nodes_by_name_unique.
Qed.

(** X14: in a graph whose node names are unique, looking a node of the
    graph up by its name gives that node's type. *)
Theorem find_node_type_of_node (d : Dataflow) (node : Node)
    (Hnames : NoDup (nd_name <$> nodes (graph d)))
    (Hnode : node ∈ nodes (graph d)) :
  find_dataflow_node_type_by_name d (nd_name node) = Some (nd_type node).
Proof. by apply scan_nodes_by_name_unique. Qed.

Lemma find_node_type_of_node_witness :
  NoDup (nd_name <$> nodes (graph sample_dataflow))
  ∧ sample_core_b ∈ nodes (graph sample_dataflow)
  ∧ find_dataflow_node_type_by_name sample_dataflow "hdmi" = Some "hdmi_tx".
Proof.
  assert (NoDup (nd_name <$> nodes (graph sample_dataflow))) as Hnames
    by by_computation.
  assert (sample_core_b ∈ nodes (graph sample_dataflow)) as Hnode
    by by_computation.
  split; [exact Hnames|]. split; [exact Hnode|].
  exact (find_node_type_of_node sample_dataflow sample_core_b Hnames Hnode).
Defined.

(** X15: the node name in an entry found by id always names a node of the
    graph, so that looking the type up by this name never fails. *)
Theorem entry_node_resolves (d : Dataflow) (k : string) (e : IfaceEntry)
    (Hfound : find_dataflow_interface_by_id d k = Some e) :
  ∃ node, node ∈ nodes (graph d) ∧ nd_name node = node_name e
          ∧ find_dataflow_node_type_by_name d (node_name e) = Some (nd_type node).
Proof.
  rewrite find_interface_by_id_lookup in Hfound.
  apply get_interfaces_indexes in Hfound as (owner & i & Hn & _ & _ & ->).
  simpl. unfold find_dataflow_node_type_by_name.
  pose proof (scan_nodes_by_name_first (nodes (graph d)) (nd_name owner)) as Hscan.
  destruct (scan_nodes_by_name _ _) as [t|].
  - destruct Hscan as (before & node & after & Heq & _ & Hname & ->).
    exists node. split; [|done]. rewrite Heq, elem_of_app, elem_of_cons. auto.
  - by destruct (Hscan owner Hn).
Qed.

Lemma entry_node_resolves_witness :
  find_dataflow_interface_by_id sample_dataflow "x1"
  = Some (mkIfaceEntry "clk" "external" "output")
  ∧ ∃ node, node ∈ nodes (graph sample_dataflow) ∧ nd_name node = "clk"
            ∧ find_dataflow_node_type_by_name sample_dataflow "clk"
              = Some (nd_type node).
Proof.
  split; [reflexivity|].
  apply (entry_node_resolves sample_dataflow "x1"
           (mkIfaceEntry "clk" "external" "output")).
  reflexivity.
Defined.

(** X16: in a graph with unique interface ids and unique node names, an
    external connection has an end that the lookup by id resolves to a node
    whose type, looked up by the node's name, is one of the two reserved
    types. *)
Theorem external_connection_reaches_metanode (d : Dataflow) (c : Connection)
    (Hids : NoDup (interface_ids (nodes (graph d))))
    (Hnames : NoDup (nd_name <$> nodes (graph d)))
    (Hc : c ∈ get_dataflow_external_connections d) :
  ∃ k e type,
    (k = conn_from c ∨ k = conn_to c)
    ∧ find_dataflow_interface_by_id d k = Some e
    ∧ find_dataflow_node_type_by_name d (node_name e) = Some type
    ∧ (type = "External Input" ∨ type = "External Output").
Proof.
  unfold get_dataflow_external_connections in Hc. simpl in Hc.
  apply elem_of_comprehension in Hc as [_ Hc].
  rewrite orb_true_iff, !in_keys_externals in Hc.
  destruct Hc as [(node & i & Hn & Hm & Hi & Hk)|(node & i & Hn & Hm & Hi & Hk)];
    destruct (resolve_owner d node i Hids Hnames Hn Hi) as (e & Hfind & Htype);
    exists (intf_id i), e, (nd_type node); rewrite Hk;
    (split; [auto|]); rewrite <- Hk;
    (split; [done|]); (split; [done|]); by apply is_external_metanode_iff.
Qed.

Lemma external_connection_reaches_metanode_witness :
  NoDup (interface_ids (nodes (graph sample_dataflow)))
  ∧ NoDup (nd_name <$> nodes (graph sample_dataflow))
  ∧ mkConnection "i2" "x2" ∈ get_dataflow_external_connections sample_dataflow
  ∧ ∃ k e type,
      (k = "i2" ∨ k = "x2")
      ∧ find_dataflow_interface_by_id sample_dataflow k = Some e
      ∧ find_dataflow_node_type_by_name sample_dataflow (node_name e) = Some type
      ∧ (type = "External Input" ∨ type = "External Output").
Proof.
  assert (NoDup (interface_ids (nodes (graph sample_dataflow)))) as Hids
    by by_computation.
  assert (NoDup (nd_name <$> nodes (graph sample_dataflow))) as Hnames
    by by_computation.
  assert (mkConnection "i2" "x2"
          ∈ get_dataflow_external_connections sample_dataflow) as Hc
    by by_computation.
  split; [exact Hids|]. split; [exact Hnames|]. split; [exact Hc|].
  exact (external_connection_reaches_metanode sample_dataflow
           (mkConnection "i2" "x2") Hids Hnames Hc).
Defined.

(** X17: in a graph with unique interface ids and unique node names, both
    ends of an IP-core connection are resolved by the lookup by id to nodes
    whose type, looked up by name, is none of the two reserved types. *)
Theorem ip_connection_joins_cores (d : Dataflow) (c : Connection)
    (Hids : NoDup (interface_ids (nodes (graph d))))
    (Hnames : NoDup (nd_name <$> nodes (graph d)))
    (Hc : c ∈ get_dataflow_ip_connections d) :
  ∀ k, k = conn_from c ∨ k = conn_to c →
    ∃ e type,
      find_dataflow_interface_by_id d k = Some e
      ∧ find_dataflow_node_type_by_name d (node_name e) = Some type
      ∧ type ≠ "External Input" ∧ type ≠ "External Output".
Proof.
  unfold get_dataflow_ip_connections in Hc. simpl in Hc.
  apply elem_of_comprehension in Hc as [_ Hc].
  rewrite andb_true_iff, !in_keys_ips in Hc.
  assert (∀ k, core_interface d k →
            ∃ e type,
              find_dataflow_interface_by_id d k = Some e
              ∧ find_dataflow_node_type_by_name d (node_name e) = Some type
              ∧ type ≠ "External Input" ∧ type ≠ "External Output") as Hcore.
  { intros k (node & i & Hn & Hm & Hi & <-).
    destruct (resolve_owner d node i Hids Hnames Hn Hi) as (e & Hfind & Htype).
    exists e, (nd_type node). split; [done|]. split; [done|].
    apply not_true_iff_false in Hm. rewrite is_external_metanode_iff in Hm.
    unfold EXT_INPUT_NAME, EXT_OUTPUT_NAME in Hm. tauto. }
  intros k [->| ->]; apply Hcore; tauto.
Qed.

Lemma ip_connection_joins_cores_witness :
  NoDup (interface_ids (nodes (graph sample_dataflow)))
  ∧ NoDup (nd_name <$> nodes (graph sample_dataflow))
  ∧ mkConnection "i2" "i3" ∈ get_dataflow_ip_connections sample_dataflow
  ∧ ∃ e type,
      find_dataflow_interface_by_id sample_dataflow "i3" = Some e
      ∧ find_dataflow_node_type_by_name sample_dataflow (node_name e) = Some type
      ∧ type ≠ "External Input" ∧ type ≠ "External Output".
Proof.
  assert (NoDup (interface_ids (nodes (graph sample_dataflow)))) as Hids
    by by_computation.
  assert (NoDup (nd_name <$> nodes (graph sample_dataflow))) as Hnames
    by by_computation.
  assert (mkConnection "i2" "i3" ∈ get_dataflow_ip_connections sample_dataflow)
    as Hc by by_computation.
  split; [exact Hids|]. split; [exact Hnames|]. split; [exact Hc|].
  apply (ip_connection_joins_cores sample_dataflow (mkConnection "i2" "i3")
           Hids Hnames Hc "i3").
  right. reflexivity.
Defined.

(** ** More on the lookups by name *)

Lemma scan_interfaces_first interfaces nm :
  match scan_interfaces interfaces nm with
  | Some i =>
      ∃ before after,
        interfaces = before ++ i :: after ∧ si_name i = nm
        ∧ ∀ j, j ∈ before → si_name j ≠ nm
  | None => ∀ j, j ∈ interfaces → si_name j ≠ nm
  end.
Proof.
  induction interfaces as [|a l IH]; simpl.
  - intros j Hj. by apply elem_of_nil in Hj.
  - case_bool_decide as Ha.
    + exists [], l. split; [done|]. split; [done|].
      intros j Hj. by apply elem_of_nil in Hj.
    + destruct (scan_interfaces l nm) as [i|].
      * destruct IH as (before & after & -> & Hi & Hbefore).
        exists (a :: before), after. split; [done|]. split; [done|].
        intros j [->|Hj]%elem_of_cons; [done|]. by apply Hbefore.
      * intros j [->|Hj]%elem_of_cons; [done|]. by apply IH.
Qed.

Lemma scan_spec_nodes_unknown catalog ty nm :
  ty ∉ sn_type <$> catalog → scan_spec_nodes catalog ty nm = None.
Proof.
  intros Hty. rewrite scan_spec_nodes_type_then_name.
  apply type_then_name_None. intros n i Hn Htype. destruct Hty.
  rewrite <- Htype. by apply list_elem_of_fmap_2.
Qed.

Lemma scan_spec_nodes_unique catalog node nm :
  NoDup (sn_type <$> catalog) → node ∈ catalog →
  scan_spec_nodes catalog (sn_type node) nm
  = scan_interfaces (sn_interfaces node) nm.
Proof.
  induction catalog as [|a rest IH]; intros Htypes Hn.
  - by apply elem_of_nil in Hn.
  - rewrite fmap_cons in Htypes. apply NoDup_cons in Htypes as [Ha Htypes].
    simpl. apply elem_of_cons in Hn as [->|Hn].
    + rewrite bool_decide_eq_false_2 by (intros Hne; by apply Hne).
      destruct (scan_interfaces _ _); [done|]. by apply scan_spec_nodes_unknown.
    + rewrite bool_decide_eq_true_2; [by apply IH|].
      intros Heq. apply Ha. rewrite Heq. by apply list_elem_of_fmap_2.
Qed.

Lemma scan_spec_nodes_app catalog1 catalog2 ty nm :
  scan_spec_nodes (catalog1 ++ catalog2) ty nm
  = match scan_spec_nodes catalog1 ty nm with
    | Some i => Some i
    | None => scan_spec_nodes catalog2 ty nm
    end.
Proof.
  induction catalog1 as [|a rest IH]; [done|]. simpl.
  case_bool_decide; [done|]. by destruct (scan_interfaces _ _).
Qed.

Lemma scan_nodes_by_name_app ns1 ns2 nm :
  scan_nodes_by_name (ns1 ++ ns2) nm
  = match scan_nodes_by_name ns1 nm with
    | Some t => Some t
    | None => scan_nodes_by_name ns2 nm
    end.
Proof.
  induction ns1 as [|a rest IH]; [done|]. simpl. by case_bool_decide.
Qed.

(** X18: in a specification with one node per type, the lookup of an
    interface of a node's type searches that node only: it returns the first
    interface of the node that carries the name, and [None] when the node
    has none. *)
Theorem find_spec_interface_unique_type (specification : Specification)
    (node : SpecNode) (iface_name : string)
    (Htypes : NoDup (sn_type <$> spec_nodes specification))
    (Hnode : node ∈ spec_nodes specification) :
  match find_spec_interface_by_name specification (sn_type node) iface_name with
  | Some interface =>
      ∃ before after,
        sn_interfaces node = before ++ interface :: after
        ∧ si_name interface = iface_name
        ∧ ∀ other, other ∈ before → si_name other ≠ iface_name
  | None => ∀ other, other ∈ sn_interfaces node → si_name other ≠ iface_name
  end.
Proof.
  unfold find_spec_interface_by_name. rewrite scan_spec_nodes_unique by done.
  apply scan_interfaces_first.
Qed.

Lemma find_spec_interface_unique_type_witness :
  NoDup (sn_type <$> spec_nodes unique_types_specification)
  ∧ mkSpecNode "spi" [mkSpecInterface "rx" "inout"]
    ∈ spec_nodes unique_types_specification
  ∧ find_spec_interface_by_name unique_types_specification "spi" "rx"
    = Some (mkSpecInterface "rx" "inout")
  ∧ ∀ other, other ∈ sn_interfaces (mkSpecNode "spi" [mkSpecInterface "rx" "inout"])
      → si_name other ≠ "tx".
Proof.
  assert (NoDup (sn_type <$> spec_nodes unique_types_specification)) as Htypes
    by by_computation.
  assert (mkSpecNode "spi" [mkSpecInterface "rx" "inout"]
          ∈ spec_nodes unique_types_specification) as Hnode
    by by_computation.
  split; [exact Htypes|]. split; [exact Hnode|]. split; [reflexivity|].
  exact (find_spec_interface_unique_type unique_types_specification
           (mkSpecNode "spi" [mkSpecInterface "rx" "inout"]) "tx" Htypes Hnode).
Defined.

(** X19: the two lookups by name go through their list once from the
    front, so on a list made of two parts the first part is searched first
    and the second part only when the first gives nothing. *)
Theorem lookups_app (catalog1 catalog2 : list SpecNode) (ns1 ns2 : list Node)
    (cs : list Connection) (node_type name : string) :
  find_spec_interface_by_name (mkSpecification (catalog1 ++ catalog2))
    node_type name
  = match find_spec_interface_by_name (mkSpecification catalog1) node_type name with
    | Some interface => Some interface
    | None =>
        find_spec_interface_by_name (mkSpecification catalog2) node_type name
    end
  ∧ find_dataflow_node_type_by_name (mkDataflow (mkGraph (ns1 ++ ns2) cs)) name
    = match find_dataflow_node_type_by_name (mkDataflow (mkGraph ns1 cs)) name with
      | Some type => Some type
      | None => find_dataflow_node_type_by_name (mkDataflow (mkGraph ns2 cs)) name
      end.
Proof.
  split.
  - apply scan_spec_nodes_app.
  - apply scan_nodes_by_name_app.
Qed.
